(** * pi-lossless-player: the mount/cache layer, the cache evictor and the
    library scanner, embedded from the Python sources.

    Layout:
    - [Py]       the few string and path functions of the Python runtime the
                 sources call ([os.path.join], [os.path.basename],
                 [os.path.splitext], [str.startswith], the extension regex);
    - [Config]   config.py;
    - [TinyTag]  the attributes of a tag object the scanner reads;
    - [Net]      network_handler.py and [execute_command] of utils.py, as a
                 state monad over the process' view of the operating system;
    - [Utils]    [clean_cache] of utils.py over the files of the cache;
    - [Library]  music_library.py over a relational store of two tables,
                 followed by the scan written as a function of the share;
    - [NetTrace] the kinds of events a run leaves in the record;
    - [Player]   [play_album] of audio_player.py over the network handler
                 and the calls it makes on the MPD client;
    - [Fixture]  concrete shares, stores, caches and servers;
    - the theorems: sorting, [clean_cache], the handler, tables under
      INSERT OR REPLACE, the store after a scan, paths, the queries, the
      scanner, and the scanner on the concrete shares; then more on the
      mount machinery, on files and listings, on [clean_cache], on the
      queries and on the scanner, and [play_album].

    Conventions.  A Python [str] is a Rocq [string] (bytes); case folding is
    the ASCII one.  Python floats that the code only compares or stores
    ([cache_size / 1024**3], [max_size_gb * 0.8], [duration]) are exact
    rationals [Q].  An exception of a library call is a [None]/[Raises]
    outcome of the corresponding primitive, handled where the source has its
    [try].  The share, the outcome of the mount commands and the clock do not
    change while the program runs ([Net.Env]); what changes is the mount
    table, the cache and the record of events ([Net.State]).  The SQLite
    statements of the library always succeed, so the [except] branches that
    only guard them are left out. *)

From Stdlib Require Import QArith Lqa Ascii.
From Stdlib Require String.
From stdpp Require Import base strings list sorting.

Local Open Scope Z_scope.

(* ===================================================================== *)
(** * Python runtime helpers *)
(* ===================================================================== *)

Module Py.

(** [s.startswith(p)] *)
Definition startswith (s p : string) : bool := String.prefix p s.

(** [s.endswith(p)] *)
Definition endswith (s p : string) : bool :=
  String.prefix (String.rev p) (String.rev s).

(** ASCII lower-casing of one character, and [str.lower] on ASCII. *)
Definition lower_ascii (c : ascii) : ascii :=
  let n := Ascii.N_of_ascii c in
  if ((65 <=? n) && (n <=? 90))%N then Ascii.ascii_of_N (n + 32) else c.

Fixpoint lower (s : string) : string :=
  match s with
  | EmptyString => EmptyString
  | String c r => String (lower_ascii c) (lower r)
  end.

(** Truthiness of an optional string: [None] and [''] are falsy, so
    [x or d] is [d] for both. *)
Definition or_str (x : option string) (d : string) : string :=
  match x with
  | Some s => if decide (s = "") then d else s
  | None => d
  end.

(** [x or d] on optional integers: [None] and [0] are falsy. *)
Definition or_int (x : option Z) (d : Z) : Z :=
  match x with
  | Some n => if decide (n = 0) then d else n
  | None => d
  end.

(** [x or d] on optional floats: [None] and [0.0] are falsy. *)
Definition or_float (x : option Q) (d : Q) : Q :=
  match x with
  | Some q => if Qeq_bool q 0 then d else q
  | None => d
  end.

(** [os.path.join(a, b)] on POSIX; [Path(a) / b] agrees with it on the
    paths the program builds. *)
Definition join (a b : string) : string :=
  if startswith b "/" then b
  else if decide (a = "") then b
  else if endswith a "/" then a +:+ b
  else a +:+ "/" +:+ b.

(** [c in s] for a character. *)
Fixpoint contains (c : ascii) (s : string) : bool :=
  match s with
  | EmptyString => false
  | String a r => bool_decide (a = c) || contains c r
  end.

(** [os.path.basename(p)]: what follows the last slash. *)
Fixpoint basename (p : string) : string :=
  match p with
  | EmptyString => EmptyString
  | String c r =>
      if contains "/"%char r then basename r
      else if decide (c = "/"%char) then r
      else p
  end.

(** [p.rfind(c)], [-1] when absent. *)
Fixpoint rfind_from (c : ascii) (p : string) (i last : Z) : Z :=
  match p with
  | EmptyString => last
  | String a r => rfind_from c r (i + 1) (if decide (a = c) then i else last)
  end.
Definition rfind (c : ascii) (p : string) : Z := rfind_from c p 0 (-1).

(** [p[i:j]] for [0 <= i]. *)
Definition slice (p : string) (i j : Z) : string :=
  String.substring (Z.to_nat i) (Z.to_nat (j - i)) p.

(** [os.path.splitext(p)], after [genericpath._splitext]: the extension
    starts at the last dot of the last component, unless that component
    consists of leading dots only up to there. *)
Definition splitext (p : string) : string * string :=
  let sepIndex := rfind "/"%char p in
  let dotIndex := rfind "."%char p in
  let n := Z.of_nat (String.length p) in
  if (sepIndex <? dotIndex)
     && negb (forallb (fun a => bool_decide (a = "."%char))
                (String.list_ascii_of_string (slice p (sepIndex + 1) dotIndex)))
  then (slice p 0 dotIndex, slice p dotIndex n)
  else (p, EmptyString).

(** The regular expressions the program hands to [list_files] all have the
    shape [".*\\<ext>$"], compiled with [re.IGNORECASE]. *)
Inductive Pattern := ExtPattern (ext : string).

(** [pattern.search(f)] for such a pattern: [f] ends, case-insensitively,
    with the extension; [$] also matches just before a final newline. *)
Definition search (pat : Pattern) (f : string) : bool :=
  match pat with
  | ExtPattern ext =>
      endswith (lower f) (lower ext)
      || endswith (lower f) (lower ext +:+ String "010"%char EmptyString)
  end.

End Py.

(* ===================================================================== *)
(** * config.py *)
(* ===================================================================== *)

Module Config.

Record t := {
  MUSIC_SERVER_IP : string;
  MUSIC_SERVER_SHARE : string;
  MUSIC_SERVER_USERNAME : option string;
  MUSIC_SERVER_PASSWORD : option string;
  MOUNT_POINT : string;
  DB_PATH : string;
  CACHE_ENABLED : bool;
  CACHE_PATH : string;
  CACHE_MAX_SIZE_GB : Q
}.

(** The values config.py ships with. *)
Definition shipped : t := {|
  MUSIC_SERVER_IP := "192.168.0.3";
  MUSIC_SERVER_SHARE := "music";
  MUSIC_SERVER_USERNAME := None;
  MUSIC_SERVER_PASSWORD := None;
  MOUNT_POINT := "/mnt/music";
  DB_PATH := "/home/pi/pi_lossless_player/music_library.db";
  CACHE_ENABLED := true;
  CACHE_PATH := "/home/pi/pi_lossless_player/cache";
  CACHE_MAX_SIZE_GB := 2%Q
|}.

End Config.

(* ===================================================================== *)
(** * The tag reader *)
(* ===================================================================== *)

Module TinyTag.

(** The attributes of a [TinyTag] object the scanner reads; each may be
    absent. *)
Record t := {
  album : option string;
  albumartist : option string;
  artist : option string;
  title : option string;
  year : option string;
  track : option Z;
  disc : option Z;
  duration : option Q
}.

End TinyTag.

(* ===================================================================== *)
(** * network_handler.py (and [execute_command] of utils.py) *)
(* ===================================================================== *)

Module Net.

(** How a call into the operating system ends: exit status 0, a non-zero
    exit status ([subprocess.CalledProcessError]), or any other exception. *)
Inductive Outcome := Succeeds | Fails | Raises.

(** The three shell commands the handler issues. *)
Inductive Command :=
| CmdMountTable                 (* mount | grep -q <mount_point> *)
| CmdUmount                     (* umount <mount_point> *)
| CmdMountCifs (creds : string) (* mount -t cifs //ip/share <mount_point> -o ... *).

Inductive Level := DEBUG | INFO | WARNING | ERROR.

(** What the process does to the outside world, most recent first. *)
Inductive Event :=
| Exec (c : Command)
| Stat (path : string)            (* os.path.exists / isdir / isfile *)
| ListDir (path : string)         (* os.listdir *)
| Copy (src dst : string)         (* os.makedirs + shutil.copy2 *)
| ReadTags (path : string)        (* TinyTag.get *)
| Log (lvl : Level) (msg : string).

#[global] Instance Outcome_eq_dec : EqDecision Outcome.
Proof. solve_decision. Defined.
#[global] Instance Command_eq_dec : EqDecision Command.
Proof. solve_decision. Defined.
#[global] Instance Level_eq_dec : EqDecision Level.
Proof. solve_decision. Defined.
#[global] Instance Event_eq_dec : EqDecision Event.
Proof. solve_decision. Defined.

(** The part of the outside world the program cannot change: what the
    share holds, how the mount commands end, which copies succeed.  Paths
    are absolute; entries below the mount point are what the share shows
    while it is mounted. *)
Record Env := {
  probe_raises : bool;                       (* the mount-table query raises *)
  umount_outcome : Outcome;
  mount_outcome : Outcome;
  listdir : string -> option (list string);  (* None: os.listdir raises *)
  isdir : string -> bool;
  isfile : string -> bool;
  exists_ : string -> bool;
  copy_ok : string -> string -> bool;        (* makedirs + copy2 succeed *)
  tags : string -> option TinyTag.t;         (* None: TinyTag.get raises *)
  now : Z                                    (* int(time.time()) *)
}.

(** The part that changes: the mount table, the files the program has
    copied into the cache, and the record of what it did. *)
Record State := {
  mounted : bool;
  copied : list string;
  events : list Event
}.

Definition M (A : Type) : Type := State -> A * State.

Definition ret {A} (a : A) : M A := fun s => (a, s).
Definition bind {A B} (m : M A) (f : A -> M B) : M B :=
  fun s => let '(a, s') := m s in f a s'.

Declare Scope net_scope.
Delimit Scope net_scope with net.
Notation "'let*' x := m 'in' k" := (bind m (fun x => k))
  (at level 10, x name, m at level 100, k at level 200) : net_scope.
Notation "m >> k" := (bind m (fun _ => k))
  (at level 100, k at level 200, right associativity) : net_scope.
Local Open Scope net_scope.

Definition emit (e : Event) : M unit :=
  fun s => (tt, {| mounted := mounted s; copied := copied s;
                   events := e :: events s |}).

Definition set_mounted (b : bool) : M unit :=
  fun s => (tt, {| mounted := b; copied := copied s; events := events s |}).

Definition add_copied (p : string) : M unit :=
  fun s => (tt, {| mounted := mounted s; copied := p :: copied s;
                   events := events s |}).

Definition get_mounted : M bool := fun s => (mounted s, s).
Definition get_copied : M (list string) := fun s => (copied s, s).

Definition logger (lvl : Level) (msg : string) : M unit := emit (Log lvl msg).

(** A step that only adds to the record of events. *)
Definition quiet (s s' : State) : Prop :=
  mounted s' = mounted s ∧ copied s' = copied s
  ∧ events s `suffix_of` events s'.

Section Handler.

Variable cfg : Config.t.
Variable env : Env.

Definition mount_point : string := Config.MOUNT_POINT cfg.
Definition cache_path : string := Config.CACHE_PATH cfg.

(** Where [get_file_path] looks for [relative_path]. *)
Definition cache_file (relative_path : string) : string :=
  Py.join cache_path relative_path.

Definition network_file (relative_path : string) : string :=
  Py.join mount_point relative_path.

(** ** The operating system as the handler sees it *)

(** The shell: the mount-table query exits 0 exactly when the share is
    mounted; [umount] and [mount] change the mount table when they
    succeed and leave it alone otherwise. *)
Definition shell (c : Command) : M Outcome :=
  match c with
  | CmdMountTable =>
      if probe_raises env then ret Raises
      else let* m := get_mounted in ret (if m then Succeeds else Fails)
  | CmdUmount =>
      let* m := get_mounted in
      if m then
        match umount_outcome env with
        | Succeeds => set_mounted false >> ret Succeeds
        | o => ret o
        end
      else ret Fails
  | CmdMountCifs _ =>
      match mount_outcome env with
      | Succeeds => set_mounted true >> ret Succeeds
      | o => ret o
      end
  end.

(** A path below the mount point shows the share only while mounted. *)
Definition visible (path : string) : M bool :=
  let* m := get_mounted in ret (negb (Py.startswith path mount_point) || m).

Definition os_path_exists (path : string) : M bool :=
  emit (Stat path) >>
  let* c := get_copied in
  let* v := visible path in
  ret (bool_decide (path ∈ c) || (v && exists_ env path)).

Definition os_path_isdir (path : string) : M bool :=
  emit (Stat path) >> let* v := visible path in ret (v && isdir env path).

Definition os_path_isfile (path : string) : M bool :=
  emit (Stat path) >> let* v := visible path in ret (v && isfile env path).

Definition os_listdir (path : string) : M (option (list string)) :=
  emit (ListDir path) >>
  let* v := visible path in
  ret (if v then listdir env path else None).

(** [os.makedirs(dirname(dst), exist_ok=True); shutil.copy2(src, dst)]:
    [true] when both return, [false] when one raises. *)
Definition copy_into (src dst : string) : M bool :=
  emit (Copy src dst) >>
  if copy_ok env src dst then add_copied dst >> ret true
  else ret false.

(** [TinyTag.get(path)], [None] when it raises. *)
Definition TinyTag_get (path : string) : M (option TinyTag.t) :=
  emit (ReadTags path) >>
  let* v := visible path in
  ret (if v then tags env path else None).

(** ** utils.execute_command *)

(** [Some (Some out)]: the command ran and exited 0; [Some None]: it
    exited non-zero, which is logged and turned into [None]; [None]: the
    call raised something else, which propagates to the caller. *)
Definition execute_command (command : Command) : M (option (option string)) :=
  logger DEBUG "Executing command" >>
  emit (Exec command) >>
  let* o := shell command in
  match o with
  | Succeeds => ret (Some (Some ""))
  | Fails => logger ERROR "Command failed" >> ret (Some None)
  | Raises => ret None
  end.

(** ** NetworkHandler *)

Definition is_mounted : M bool :=
  let* r := execute_command CmdMountTable in
  match r with
  | Some result => ret (bool_decide (result ≠ None))
  | None => logger ERROR "Error checking mount status" >> ret false
  end.

Definition unmount_share : M bool :=
  let* m := is_mounted in
  if m then
    let* r := execute_command CmdUmount in
    match r with
    | Some result => logger INFO "Unmounted share" >> ret true
    | None => logger ERROR "Error unmounting share" >> ret false
    end
  else ret true.

Definition creds : string :=
  match Config.MUSIC_SERVER_USERNAME cfg, Config.MUSIC_SERVER_PASSWORD cfg with
  | Some u, Some p =>
      if decide (u = "") then "guest"
      else if decide (p = "") then "guest"
      else "username=" +:+ u +:+ ",password=" +:+ p
  | _, _ => "guest"
  end.

Definition mount_share : M bool :=
  unmount_share >>
  let* r := execute_command (CmdMountCifs creds) in
  match r with
  | Some result =>
      let* m := is_mounted in
      if m then logger INFO "Successfully mounted share" >> ret true
      else logger ERROR "Failed to mount share" >> ret false
  | None => logger ERROR "Error mounting share" >> ret false
  end.

Definition ensure_mounted : M bool :=
  let* m := is_mounted in
  if negb m then mount_share else ret true.

Definition full_path (path : string) : string :=
  if decide (path = "") then mount_point else Py.join mount_point path.

(** The comprehension [[d for d in names if pred(join(full_path, d))]]. *)
Fixpoint keep_if (pred : string -> M bool) (dir : string)
    (names : list string) : M (list string) :=
  match names with
  | [] => ret []
  | d :: rest =>
      let* b := pred (Py.join dir d) in
      let* l := keep_if pred dir rest in
      ret (if b then d :: l else l)
  end.

Definition list_directories (path : string) : M (list string) :=
  let* ok := ensure_mounted in
  if negb ok then ret []
  else
    let* r := os_listdir (full_path path) in
    match r with
    | Some names => keep_if os_path_isdir (full_path path) names
    | None => logger ERROR "Error listing directories" >> ret []
    end.

Definition list_files (path : string) (filter_pattern : option Py.Pattern)
    : M (list string) :=
  let* ok := ensure_mounted in
  if negb ok then ret []
  else
    let* r := os_listdir (full_path path) in
    match r with
    | Some names =>
        let* files := keep_if os_path_isfile (full_path path) names in
        ret match filter_pattern with
             | Some pattern => List.filter (Py.search pattern) files
             | None => files
             end
    | None => logger ERROR "Error listing files" >> ret []
    end.

Definition get_file_path (relative_path : string) : M (option string) :=
  if Config.CACHE_ENABLED cfg then
    let cache_file := Py.join cache_path relative_path in
    let* hit := os_path_exists cache_file in
    if hit then ret (Some cache_file)
    else
      let* ok := ensure_mounted in
      if negb ok then ret None
      else
        let network_file := Py.join mount_point relative_path in
        let* there := os_path_exists network_file in
        if negb there then ret None
        else
          let* done_ := copy_into network_file cache_file in
          if done_ then ret (Some cache_file)
          else logger ERROR "Error caching file" >>
               ret (Some network_file)
  else
    let* ok := ensure_mounted in
    if negb ok then ret None
    else
      let network_file := Py.join mount_point relative_path in
      let* there := os_path_exists network_file in
      ret (if there then Some network_file else None).

(** ** What the listings return while the share stays mounted *)

Definition ready (s : State) : Prop :=
  probe_raises env = false ∧ mounted s = true.

(** A start from which the share cannot be brought up. *)
Definition hopeless (s : State) : Prop :=
  probe_raises env = true
  ∨ (mounted s = false ∧ mount_outcome env ≠ Succeeds).

(** [steady m f]: from every ready state [m] returns [f c], where [c]
    is the list of files copied so far, and only adds events. *)
Definition steady {A} (m : M A) (f : list string → A) : Prop :=
  ∀ s, ready s → ∃ s', m s = (f (copied s), s') ∧ quiet s s'.

Definition dirs_of (path : string) : list string :=
  match listdir env (full_path path) with
  | Some names =>
      List.filter (fun d => isdir env (Py.join (full_path path) d)) names
  | None => []
  end.

Definition files_of (path : string) (filter_pattern : option Py.Pattern)
    : list string :=
  match listdir env (full_path path) with
  | Some names =>
      let files :=
        List.filter (fun f => isfile env (Py.join (full_path path) f)) names in
      match filter_pattern with
      | Some pattern => List.filter (Py.search pattern) files
      | None => files
      end
  | None => []
  end.

End Handler.

End Net.

(* ===================================================================== *)
(** * Sorting as Python's [list.sort] and SQL's [ORDER BY] do it *)
(* ===================================================================== *)

Section Sorting.

Context {A : Type} (le : A -> A -> bool).

(** Stable insertion: [x] goes before the first element it is not
    greater than. *)
Fixpoint insert_sorted (x : A) (l : list A) : list A :=
  match l with
  | [] => [x]
  | y :: r => if le x y then x :: l else y :: insert_sorted x r
  end.

Definition sort_by (l : list A) : list A := foldr insert_sorted [] l.

End Sorting.

(* ===================================================================== *)
(** * utils.py: clean_cache *)
(* ===================================================================== *)

Module Utils.

(** A regular file below the cache directory, as [os.walk] finds it. *)
Record CacheFile := {
  path : string;
  size : N;            (* os.path.getsize, bytes *)
  atime : Q;           (* os.path.getatime *)
  removable : bool     (* os.remove succeeds on it *)
}.

(** The cache directory: its files in [os.walk] order.  Reading sizes and
    access times always succeeds; [os.remove] may fail. *)
Definition Cache := list CacheFile.

Definition GiB : Q := inject_Z (1024 ^ 3).

(** [sum(getsize(f) for f in walk)]. *)
Definition total_bytes (fs : Cache) : Z :=
  foldr (fun f acc => Z.of_N (size f) + acc) 0 fs.

(** [sum(...) / (1024**3)]. *)
Definition size_gb (fs : Cache) : Q := (inject_Z (total_bytes fs) / GiB)%Q.

Definition Qlt_bool (a b : Q) : bool := negb (Qle_bool b a).

(** [os.remove(p)]: [None] when it raises (no such file, or the file
    cannot be removed). *)
Definition os_remove (p : string) (fs : Cache) : option Cache :=
  match List.find (fun f => bool_decide (path f = p)) fs with
  | Some f =>
      if removable f then Some (List.filter (fun g => negb (bool_decide (path g = p))) fs)
      else None
  | None => None
  end.

(** How a sweep ends and what it logs. *)
Inductive Sweep :=
| WithinLimit               (* nothing logged *)
| Cleaned (new_size : Q)    (* "Cache cleaned, new size: ..." *)
| Error                     (* "Error cleaning cache: ..." *).

(** The loop [for file_path, _ in files: ...].  [last] is the value of
    [new_size] so far, unbound ([None]) before the first iteration. *)
Fixpoint remove_loop (max_size_gb : Q) (files : list (string * Q))
    (last : option Q) (fs : Cache) : Cache * option (option Q) :=
  match files with
  | [] => (fs, Some last)
  | (file_path, _) :: rest =>
      match os_remove file_path fs with
      | None => (fs, None)
      | Some fs' =>
          let new_size := size_gb fs' in
          if Qlt_bool new_size (max_size_gb * (8 # 10))%Q
          then (fs', Some (Some new_size))
          else remove_loop max_size_gb rest (Some new_size) fs'
      end
  end.

Definition clean_cache (fs : Cache) (max_size_gb : Q) : Cache * Sweep :=
  let cache_size_gb := size_gb fs in
  if Qlt_bool max_size_gb cache_size_gb then
    let files := map (fun f => (path f, atime f)) fs in
    let files := sort_by (fun x y => Qle_bool (snd x) (snd y)) files in
    match remove_loop max_size_gb files None fs with
    | (fs', Some (Some new_size)) => (fs', Cleaned new_size)
    | (fs', Some None) => (fs', Error)   (* new_size unbound at the log *)
    | (fs', None) => (fs', Error)
    end
  else (fs, WithinLimit).

(** The list [files] of [clean_cache] after [files.sort]: path and access
    time of every cached file, least recently accessed first. *)
Definition oldest_first (fs : Cache) : list (string * Q) :=
  sort_by (fun x y => Qle_bool (snd x) (snd y))
    (map (fun f => (path f, atime f)) fs).

(** [max_size_gb * 0.8]. *)
Definition threshold (max_size_gb : Q) : Q := (max_size_gb * (8 # 10))%Q.

(** The cache without the files at the paths [ps]. *)
Definition without (ps : list string) (fs : Cache) : Cache :=
  List.filter (fun g => negb (bool_decide (path g ∈ ps))) fs.

(** The cache after the first [j] files in access-time order are gone. *)
Definition after_removing (j : nat) (fs : Cache) : Cache :=
  without (map fst (take j (oldest_first fs))) fs.

End Utils.

(* ===================================================================== *)
(** * music_library.py *)
(* ===================================================================== *)

Module Library.

Import Net.
Local Open Scope net_scope.

Definition SUPPORTED_FORMATS : list string :=
  [".flac"; ".wav"; ".alac"; ".ape"; ".aiff"; ".dsd"; ".dsf"; ".dff"; ".wv"].

Definition COVER_NAMES : list string :=
  ["cover.jpg"; "folder.jpg"; "album.jpg"; "front.jpg"; "artwork.jpg"].

(** ** The store: the two tables of [init_db] *)

Record AlbumRow := {
  a_id : Z;                       (* INTEGER PRIMARY KEY *)
  a_title : string;
  a_artist : string;
  a_year : string;
  a_directory : string;           (* UNIQUE *)
  a_cover_art : option string;
  a_last_updated : Z
}.

Record TrackRow := {
  t_id : Z;                       (* INTEGER PRIMARY KEY *)
  t_album_id : Z;
  t_title : string;
  t_artist : string;
  t_track_number : Z;
  t_disc_number : Z;
  t_duration : Q;
  t_file_path : string            (* UNIQUE *)
}.

(** Rows are kept in rowid order. *)
Record DB := {
  albums : list AlbumRow;
  tracks : list TrackRow
}.

Definition empty_db : DB := {| albums := []; tracks := [] |}.

(** The rowid SQLite gives a row inserted without one: one more than the
    largest rowid in the table, 1 in an empty table. *)
Definition next_rowid (ids : list Z) : Z := foldr Z.max 0 ids + 1.

(** [INSERT OR REPLACE] on a table with one unique text column [key] and
    the rowid [rid], and a run of them. *)
Section Table.

Context {R X : Type} (key : R → string) (rid : R → Z).

Definition upsert (k : string) (mk : Z → R) (tbl : list R) : list R :=
  filter (fun r => key r ≠ k) tbl ++ [mk (next_rowid (map rid tbl))].

Definition upserts (kf : X → string) (mk : X → Z → R) (tbl : list R)
    (xs : list X) : list R :=
  foldl (fun t x => upsert (kf x) (mk x) t) tbl xs.

End Table.

(** [INSERT OR REPLACE INTO albums (title, artist, year, directory,
    cover_art, last_updated) VALUES (...)]: the rowid is chosen first, the
    rows that clash on the unique [directory] are deleted, the new row is
    inserted.  Returns the table and [cursor.lastrowid]. *)
Definition insert_or_replace_album
    (title artist year directory : string) (cover_art : option string)
    (last_updated : Z) (tbl : list AlbumRow) : list AlbumRow * Z :=
  let rowid := next_rowid (map a_id tbl) in
  (filter (fun r => a_directory r ≠ directory) tbl ++
     [{| a_id := rowid; a_title := title; a_artist := artist;
         a_year := year; a_directory := directory;
         a_cover_art := cover_art; a_last_updated := last_updated |}],
   rowid).

(** [INSERT OR REPLACE INTO tracks (album_id, title, artist, track_number,
    disc_number, duration, file_path) VALUES (...)]. *)
Definition insert_or_replace_track
    (album_id : Z) (title artist : string) (track_number disc_number : Z)
    (duration : Q) (file_path : string) (tbl : list TrackRow)
    : list TrackRow :=
  let rowid := next_rowid (map t_id tbl) in
  filter (fun r => t_file_path r ≠ file_path) tbl ++
    [{| t_id := rowid; t_album_id := album_id; t_title := title;
        t_artist := artist; t_track_number := track_number;
        t_disc_number := disc_number; t_duration := duration;
        t_file_path := file_path |}].

(** ** SQL operators *)

(** [s LIKE pat] as SQLite evaluates it: [%] stands for any run of
    characters, [_] for any one character, anything else for itself up to
    ASCII case. *)
Fixpoint like_chars (pat s : list ascii) : bool :=
  match pat with
  | [] => match s with [] => true | _ => false end
  | c :: pat' =>
      if decide (c = "%"%char) then
        (fix any_run (s : list ascii) : bool :=
           like_chars pat' s
           || match s with [] => false | _ :: s' => any_run s' end) s
      else if decide (c = "_"%char) then
        match s with [] => false | _ :: s' => like_chars pat' s' end
      else
        match s with
        | [] => false
        | d :: s' =>
            bool_decide (Py.lower_ascii c = Py.lower_ascii d)
            && like_chars pat' s'
        end
  end.

Definition like (s pat : string) : bool :=
  like_chars (String.list_ascii_of_string pat) (String.list_ascii_of_string s).

(** [ORDER BY title]: the default collation compares bytes. *)
Definition album_le (r1 r2 : AlbumRow) : bool :=
  String.leb (a_title r1) (a_title r2).

(** [ORDER BY disc_number, track_number, title]. *)
Definition track_le (r1 r2 : TrackRow) : bool :=
  (t_disc_number r1 <? t_disc_number r2)
  || ((t_disc_number r1 =? t_disc_number r2)
      && ((t_track_number r1 <? t_track_number r2)
          || ((t_track_number r1 =? t_track_number r2)
              && String.leb (t_title r1) (t_title r2)))).

(** ** What the queries return *)

Record TrackInfo := {
  ti_title : string;
  ti_artist : string;
  ti_track_number : Z;
  ti_disc_number : Z;
  ti_duration : Q;
  ti_file_path : string
}.

Record AlbumInfo := {
  ai_id : Z;
  ai_title : string;
  ai_artist : string;
  ai_year : string;
  ai_directory : string;
  ai_cover_art : option string;
  ai_tracks : list TrackInfo
}.

Definition track_info (r : TrackRow) : TrackInfo :=
  {| ti_title := t_title r; ti_artist := t_artist r;
     ti_track_number := t_track_number r;
     ti_disc_number := t_disc_number r;
     ti_duration := t_duration r; ti_file_path := t_file_path r |}.

(** [SELECT ... FROM tracks WHERE album_id = ? ORDER BY disc_number,
    track_number, title]. *)
Definition select_tracks (album_id : Z) (db : DB) : list TrackRow :=
  sort_by track_le (filter (fun r => t_album_id r = album_id) (tracks db)).

Definition album_info (db : DB) (r : AlbumRow) : AlbumInfo :=
  {| ai_id := a_id r; ai_title := a_title r; ai_artist := a_artist r;
     ai_year := a_year r; ai_directory := a_directory r;
     ai_cover_art := a_cover_art r;
     ai_tracks := map track_info (select_tracks (a_id r) db) |}.

(** [SELECT ... FROM albums WHERE title LIKE ? OR artist LIKE ? ORDER BY
    title LIMIT 10] with both parameters ["%" + query + "%"]. *)
Definition select_albums (query : string) (db : DB) : list AlbumRow :=
  let pat := "%" +:+ query +:+ "%" in
  take 10 (sort_by album_le
    (List.filter (fun r => like (a_title r) pat || like (a_artist r) pat)
       (albums db))).

Definition search_albums (query : string) (db : DB) : list AlbumInfo :=
  map (album_info db) (select_albums query db).

Definition get_album_by_id (album_id : Z) (db : DB) : option AlbumInfo :=
  match List.find (fun r => bool_decide (a_id r = album_id)) (albums db) with
  | Some row => Some (album_info db row)
  | None => None
  end.

(** ** What the specification calls a case-insensitive substring match *)





(** The order [(disc number, track number, title)] on returned tracks. *)
Definition track_order (x y : TrackInfo) : Prop :=
  ti_disc_number x < ti_disc_number y
  ∨ (ti_disc_number x = ti_disc_number y
     ∧ (ti_track_number x < ti_track_number y
        ∨ (ti_track_number x = ti_track_number y
           ∧ String.leb (ti_title x) (ti_title y) = true))).


(** ** The scanner *)

Section Scanner.

Variable cfg : Config.t.
Variable env : Env.

Let MOUNT_POINT : string := Config.MOUNT_POINT cfg.

(** [for ext in SUPPORTED_FORMATS: music_files.extend(list_files(dir,
    f".*\\{ext}$"))]. *)
Fixpoint collect_music_files (dir : string) (exts : list string)
    : M (list string) :=
  match exts with
  | [] => ret []
  | ext :: rest =>
      let* found := list_files cfg env dir (Some (Py.ExtPattern ext)) in
      let* more := collect_music_files dir rest in
      ret (found ++ more)
  end.

(** The cover-art loop: the first candidate that exists. *)
Fixpoint find_cover_art (album_dir : string) (names : list string)
    : M (option string) :=
  match names with
  | [] => ret None
  | art_file :: rest =>
      let art_path := Py.join album_dir art_file in
      let* there := os_path_exists cfg env (Py.join MOUNT_POINT art_path) in
      if there then ret (Some art_path) else find_cover_art album_dir rest
  end.

(** The track loop of [_process_album_directory]. *)
Fixpoint process_tracks (album_dir : string) (album_id : Z)
    (album_artist : string) (music_files : list string)
    (tbl : list TrackRow) : M (list TrackRow) :=
  match music_files with
  | [] => ret tbl
  | file_name :: rest =>
      let file_path := Py.join album_dir file_name in
      let full_path := Py.join MOUNT_POINT file_path in
      let* tag := TinyTag_get cfg env full_path in
      let* fields :=
        match tag with
        | Some tag =>
            ret (Py.or_str (TinyTag.title tag) (fst (Py.splitext file_name)),
                 Py.or_str (TinyTag.artist tag) album_artist,
                 Py.or_int (TinyTag.track tag) 0,
                 Py.or_int (TinyTag.disc tag) 1,
                 Py.or_float (TinyTag.duration tag) 0)
        | None =>
            logger WARNING ("Error reading tags from " +:+ full_path) >>
            ret (fst (Py.splitext file_name), album_artist, 0, 1, 0%Q)
        end in
      let '(track_title, track_artist, track_number, disc_number, duration) :=
        fields in
      process_tracks album_dir album_id album_artist rest
        (insert_or_replace_track album_id track_title track_artist
           track_number disc_number duration file_path tbl)
  end.

Definition _process_album_directory (album_dir : string) (db : DB)
    : M (Z * DB) :=
  let* music_files := collect_music_files album_dir SUPPORTED_FORMATS in
  match music_files with
  | [] => ret (0, db)
  | first_file :: _ =>
      let* cover_art := find_cover_art album_dir COVER_NAMES in
      let first_file_path :=
        Py.join (Py.join MOUNT_POINT album_dir) first_file in
      let* tag := TinyTag_get cfg env first_file_path in
      let* meta :=
        match tag with
        | Some tag =>
            ret (Py.or_str (TinyTag.album tag) (Py.basename album_dir),
                 Py.or_str (TinyTag.albumartist tag)
                   (Py.or_str (TinyTag.artist tag) "Unknown Artist"),
                 Py.or_str (TinyTag.year tag) "Unknown Year")
        | None =>
            logger WARNING ("Error reading tags from " +:+ first_file_path) >>
            ret (Py.basename album_dir, "Unknown Artist", "Unknown Year")
        end in
      let '(album_title, album_artist, album_year) := meta in
      let '(albums', album_id) :=
        insert_or_replace_album album_title album_artist album_year
          album_dir cover_art (now env) (albums db) in
      let* tracks' :=
        process_tracks album_dir album_id album_artist music_files
          (tracks db) in
      ret (1, {| albums := albums'; tracks := tracks' |})
  end.

(** [for subdir in subdirs: albums_found += _process_album_directory(
    os.path.join(dir_name, subdir), cursor)]. *)
Fixpoint process_subdirs (dir_name : string) (subdirs : list string)
    (albums_found : Z) (db : DB) : M (Z * DB) :=
  match subdirs with
  | [] => ret (albums_found, db)
  | subdir :: rest =>
      let* r := _process_album_directory (Py.join dir_name subdir) db in
      process_subdirs dir_name rest (albums_found + fst r) (snd r)
  end.

(** The loop [for dir_name in music_dirs] of [scan_library]. *)
Fixpoint scan_dirs (music_dirs : list string) (albums_found : Z)
    (db : DB) : M (Z * DB) :=
  match music_dirs with
  | [] => ret (albums_found, db)
  | dir_name :: rest =>
      if Py.startswith dir_name "." then scan_dirs rest albums_found db
      else
        let* music_files := collect_music_files dir_name SUPPORTED_FORMATS in
        match music_files with
        | [] =>
            let* subdirs := list_directories cfg env dir_name in
            let* r := process_subdirs dir_name subdirs albums_found db in
            scan_dirs rest (fst r) (snd r)
        | _ :: _ =>
            let* r := _process_album_directory dir_name db in
            scan_dirs rest (albums_found + fst r) (snd r)
        end
  end.

(** [scan_library]; the store is committed when the loop is over. *)
Definition scan_library (db : DB) : M (bool * DB) :=
  logger INFO "Starting music library scan..." >>
  let* ok := ensure_mounted cfg env in
  if negb ok then
    logger ERROR "Cannot scan library: network share not mounted" >>
    ret (false, db)
  else
    let* music_dirs := list_directories cfg env "" in
    let* r := scan_dirs music_dirs 0 db in
    logger INFO "Library scan complete" >>
    ret (true, snd r).

(** ** The scan as a function of the share, while it stays mounted

    [c] is the list of files copied into the cache so far, which
    [os.path.exists] also sees. *)

Definition music_files_of (dir : string) : list string :=
  flat_map (fun ext => files_of cfg env dir (Some (Py.ExtPattern ext)))
    SUPPORTED_FORMATS.

Fixpoint cover_of (c : list string) (album_dir : string)
    (names : list string) : option string :=
  match names with
  | [] => None
  | art_file :: rest =>
      let art_path := Py.join album_dir art_file in
      if bool_decide (Py.join MOUNT_POINT art_path ∈ c)
         || exists_ env (Py.join MOUNT_POINT art_path)
      then Some art_path else cover_of c album_dir rest
  end.

Definition album_meta (album_dir first_file : string)
    : string * string * string :=
  match tags env (Py.join (Py.join MOUNT_POINT album_dir) first_file) with
  | Some tag =>
      (Py.or_str (TinyTag.album tag) (Py.basename album_dir),
       Py.or_str (TinyTag.albumartist tag)
         (Py.or_str (TinyTag.artist tag) "Unknown Artist"),
       Py.or_str (TinyTag.year tag) "Unknown Year")
  | None => (Py.basename album_dir, "Unknown Artist", "Unknown Year")
  end.

Definition track_row (album_dir : string) (album_id : Z)
    (album_artist file_name : string) (rowid : Z) : TrackRow :=
  let file_path := Py.join album_dir file_name in
  match tags env (Py.join MOUNT_POINT file_path) with
  | Some tag =>
      {| t_id := rowid; t_album_id := album_id;
         t_title := Py.or_str (TinyTag.title tag) (fst (Py.splitext file_name));
         t_artist := Py.or_str (TinyTag.artist tag) album_artist;
         t_track_number := Py.or_int (TinyTag.track tag) 0;
         t_disc_number := Py.or_int (TinyTag.disc tag) 1;
         t_duration := Py.or_float (TinyTag.duration tag) 0;
         t_file_path := file_path |}
  | None =>
      {| t_id := rowid; t_album_id := album_id;
         t_title := fst (Py.splitext file_name);
         t_artist := album_artist;
         t_track_number := 0; t_disc_number := 1; t_duration := 0;
         t_file_path := file_path |}
  end.

Definition upsert_track (album_dir : string) (album_id : Z)
    (album_artist : string) (tbl : list TrackRow) (file_name : string)
    : list TrackRow :=
  filter (fun r => t_file_path r ≠ Py.join album_dir file_name) tbl ++
    [track_row album_dir album_id album_artist file_name
       (next_rowid (map t_id tbl))].

Definition album_row (c : list string) (album_dir first_file : string)
    (rowid : Z) : AlbumRow :=
  let '(album_title, album_artist, album_year) :=
    album_meta album_dir first_file in
  {| a_id := rowid; a_title := album_title; a_artist := album_artist;
     a_year := album_year; a_directory := album_dir;
     a_cover_art := cover_of c album_dir COVER_NAMES;
     a_last_updated := now env |}.

Definition process_pure (c : list string) (db : DB) (album_dir : string)
    : Z * DB :=
  match music_files_of album_dir with
  | [] => (0, db)
  | first_file :: _ =>
      let album_id := next_rowid (map a_id (albums db)) in
      let row := album_row c album_dir first_file album_id in
      (1, {| albums :=
               filter (fun r => a_directory r ≠ album_dir) (albums db)
                 ++ [row];
             tracks :=
               foldl (upsert_track album_dir album_id (a_artist row))
                 (tracks db) (music_files_of album_dir) |})
  end.

(** The album directories the scan visits under one top-level
    directory, in order. *)
Definition candidates (dir_name : string) : list string :=
  if Py.startswith dir_name "." then []
  else match music_files_of dir_name with
       | [] => map (Py.join dir_name) (dirs_of cfg env dir_name)
       | _ :: _ => [dir_name]
       end.

Definition visit (c : list string) (acc : Z * DB) (album_dir : string)
    : Z * DB :=
  let r := process_pure c (snd acc) album_dir in (fst acc + fst r, snd r).

Definition scan_pure (c : list string) (music_dirs : list string)
    (albums_found : Z) (db : DB) : Z * DB :=
  foldl (visit c) (albums_found, db) (flat_map candidates music_dirs).

(** The candidates that hold music, and the album row and track rows
    each of them gets. *)
Definition has_music (dir : string) : bool :=
  match music_files_of dir with [] => false | _ :: _ => true end.

Definition mk_album (c : list string) (album_dir : string) (rowid : Z)
    : AlbumRow :=
  album_row c album_dir (hd "" (music_files_of album_dir)) rowid.

(** A track to insert: album directory, album id, album artist, file
    name. *)
Definition TrackItem : Type := string * Z * string * string.

Definition item_path (x : TrackItem) : string :=
  let '(d, _, _, f) := x in Py.join d f.

Definition mk_track (x : TrackItem) (rowid : Z) : TrackRow :=
  let '(d, i, a, f) := x in track_row d i a f rowid.

Definition paths_in (album_dir : string) : list string :=
  map (Py.join album_dir) (music_files_of album_dir).

(** The tracks one album directory contributes to store [db]. *)
Definition items_of (c : list string) (db : DB) (d : string)
    : list TrackItem :=
  let album_id := next_rowid (map a_id (albums db)) in
  map (fun f => (d, album_id, a_artist (mk_album c d album_id), f))
    (music_files_of d).

End Scanner.

(** The unique constraints of the two tables. *)
Definition wf_db (db : DB) : Prop :=
  NoDup (map a_directory (albums db)) ∧ NoDup (map t_file_path (tracks db)).

End Library.

(* ===================================================================== *)
(** * What a run leaves in the record of events *)
(* ===================================================================== *)

Module NetTrace.

Import Net.

(** An event of the mount machinery: a shell command or a log line. *)
Definition shell_or_log (e : Event) : bool :=
  match e with
  | Exec _ | Log _ _ => true
  | _ => false
  end.

End NetTrace.

(* ===================================================================== *)
(** * audio_player.py: play_album *)
(* ===================================================================== *)

Module Player.

Import Net Library.

(** The calls the player makes on its [mpd.MPDClient]. *)
Inductive Call :=
| Clear                 (* client.clear() *)
| Add (uri : string)    (* client.add(uri) *)
| Play                  (* client.play() *).

#[global] Instance Call_eq_dec : EqDecision Call.
Proof. solve_decision. Defined.

(** How the MPD server answers these calls: [true] when the call
    returns, [false] when it raises. *)
Record Server := {
  clear_ok : bool;
  add_ok : string → bool;
  play_ok : bool
}.

(** What a run of the player changes: the state the network handler
    works on, and the record of the client calls made, most recent
    first. *)
Record World := {
  net : Net.State;
  calls : list Call
}.

Definition P (A : Type) : Type := World → A * World.

Definition ret {A} (a : A) : P A := fun w => (a, w).
Definition bind {A B} (m : P A) (f : A → P B) : P B :=
  fun w => let '(a, w') := m w in f a w'.

Declare Scope player_scope.
Delimit Scope player_scope with player.
Notation "'let*' x := m 'in' k" := (bind m (fun x => k))
  (at level 10, x name, m at level 100, k at level 200) : player_scope.
Notation "m >> k" := (bind m (fun _ => k))
  (at level 100, k at level 200, right associativity) : player_scope.
Local Open Scope player_scope.

(** A computation of the network handler, run inside the player. *)
Definition lift {A} (m : Net.M A) : P A :=
  fun w => let '(a, n) := m (net w) in (a, {| net := n; calls := calls w |}).

Definition logger (lvl : Level) (msg : string) : P unit :=
  lift (Net.logger lvl msg).

(** A client call: it is made, and returns or raises as the server
    decides. *)
Definition call (c : Call) (ok : bool) : P bool :=
  fun w => (ok, {| net := net w; calls := c :: calls w |}).

Section AudioPlayer.

Variable cfg : Config.t.
Variable env : Env.
Variable server : Server.

(** [AudioPlayer.ensure_connected], which talks to the MPD server only;
    [play_album] is embedded for any behaviour of it. *)
Variable ensure_connected : P bool.

Definition client_clear : P bool := call Clear (clear_ok server).
Definition client_add (uri : string) : P bool := call (Add uri) (add_ok server uri).
Definition client_play : P bool := call Play (play_ok server).

(** The loop [for track in album['tracks']]; the answer is [false] when
    [client.add] raised, which ends the loop. *)
Fixpoint add_tracks (tracks : list TrackInfo) : P bool :=
  match tracks with
  | [] => ret true
  | track :: rest =>
      let* file_path := lift (get_file_path cfg env (ti_file_path track)) in
      match file_path with
      | Some p =>
          if decide (p = "") then
            logger WARNING "Could not find file for track" >> add_tracks rest
          else
            let* added := client_add ("file://" +:+ p) in
            if added then add_tracks rest else ret false
      | None =>
          logger WARNING "Could not find file for track" >> add_tracks rest
      end
  end.

(** [play_album]; [None] is the [None] that [get_album_by_id] returns. *)
Definition play_album (album : option AlbumInfo) : P bool :=
  let refused :=
    logger ERROR "Cannot play album: not connected to MPD or album is empty" >>
    ret false in
  let failed := logger ERROR "Error playing album" >> ret false in
  let* connected := ensure_connected in
  if negb connected then refused
  else
    match album with
    | None => refused
    | Some a =>
        match ai_tracks a with
        | [] => refused
        | _ :: _ =>
            let* cleared := client_clear in
            if negb cleared then failed
            else
              let* added := add_tracks (ai_tracks a) in
              if negb added then failed
              else
                let* started := client_play in
                if negb started then failed
                else logger INFO "Started playback of album" >> ret true
        end
    end.

End AudioPlayer.

End Player.

(* ===================================================================== *)
(** * Concrete worlds *)
(* ===================================================================== *)

Module Fixture.

Import Net.

(** A share given by its directories (absolute path, entries) and its
    regular files (absolute path, tags or unreadable). *)
Definition env_of (dirs : list (string * list string))
    (files : list (string * option TinyTag.t))
    (umount mount : Outcome) : Env :=
  {| probe_raises := false;
     umount_outcome := umount;
     mount_outcome := mount;
     listdir := fun p => snd <$> List.find (fun d => bool_decide (fst d = p)) dirs;
     isdir := fun p => bool_decide (p ∈ map fst dirs);
     isfile := fun p => bool_decide (p ∈ map fst files);
     exists_ := fun p => bool_decide (p ∈ map fst dirs ++ map fst files);
     copy_ok := fun _ _ => true;
     tags := fun p =>
       match List.find (fun f => bool_decide (fst f = p)) files with
       | Some (_, t) => t
       | None => None
       end;
     now := 1700000000 |}.

Definition tag_of (album artist title : string) (track : Z) : option TinyTag.t :=
  Some {| TinyTag.album := Some album; TinyTag.albumartist := None;
          TinyTag.artist := Some artist; TinyTag.title := Some title;
          TinyTag.year := None; TinyTag.track := Some track;
          TinyTag.disc := None; TinyTag.duration := Some (180 # 1)%Q |}.

Definition start (m : bool) : State :=
  {| mounted := m; copied := []; events := [] |}.

(** /Artist/AlbumA/{01.flac,02.flac,cover.jpg}, a hidden top-level
    directory holding an album, and a hidden album inside /Artist with one
    unreadable file. *)
Definition share : Env :=
  env_of
    [("/mnt/music", ["Artist"; ".Trash"; "notes.txt"]);
     ("/mnt/music/Artist", ["AlbumA"; "AlbumB"; ".secret"]);
     ("/mnt/music/Artist/AlbumA", ["01.flac"; "02.flac"; "cover.jpg"]);
     ("/mnt/music/Artist/AlbumB", ["b1.FLAC"]);
     ("/mnt/music/Artist/.secret", ["s1.wav"]);
     ("/mnt/music/.Trash", ["Old"]);
     ("/mnt/music/.Trash/Old", ["x.flac"])]
    [("/mnt/music/notes.txt", None);
     ("/mnt/music/Artist/AlbumA/01.flac", tag_of "AlbumA" "Artist" "Song1" 1);
     ("/mnt/music/Artist/AlbumA/02.flac", tag_of "AlbumA" "Artist" "Song2" 2);
     ("/mnt/music/Artist/AlbumA/cover.jpg", None);
     ("/mnt/music/Artist/AlbumB/b1.FLAC", tag_of "AlbumB" "Artist" "B One" 1);
     ("/mnt/music/Artist/.secret/s1.wav", None);
     ("/mnt/music/.Trash/Old/x.flac", tag_of "Old" "Nobody" "X" 1)]
    Succeeds Succeeds.

(** The same share behind a server whose [umount] exits non-zero. *)
Definition busy_share : Env :=
  env_of [("/mnt/music", ["Artist"])] [] Fails Succeeds.

(** A state in which one track is already in the cache. *)
Definition cached_track : string := "Artist/AlbumA/01.flac".

Definition warm : State :=
  {| mounted := false;
     copied := [Net.cache_file Config.shipped cached_track];
     events := [] |}.

(** A box set: a container directory with two discs, one of which has a
    directory of bonus material below it, and a directory of scans. *)
Definition box_set : Env :=
  env_of
    [("/mnt/music", ["Box"]);
     ("/mnt/music/Box", ["CD1"; "CD2"; "scans"]);
     ("/mnt/music/Box/CD1", ["a.flac"; "bonus"]);
     ("/mnt/music/Box/CD1/bonus", ["deep.flac"]);
     ("/mnt/music/Box/CD2", ["b.flac"]);
     ("/mnt/music/Box/scans", ["front.jpg"])]
    [("/mnt/music/Box/CD1/a.flac", tag_of "Disc One" "Band" "A" 1);
     ("/mnt/music/Box/CD1/bonus/deep.flac", tag_of "Bonus" "Band" "Deep" 1);
     ("/mnt/music/Box/CD2/b.flac", tag_of "Disc Two" "Band" "B" 1);
     ("/mnt/music/Box/scans/front.jpg", None)]
    Succeeds Succeeds.

(** The index after a first scan of [share]. *)
Definition scanned : Library.DB :=
  snd (fst (Library.scan_library Config.shipped share Library.empty_db
              (start true))).


(** Three cached files of 3, 2 and 1 GiB, last read at times 3, 1, 2. *)
Definition gib_file (p : string) (gib : Z) (t : Z) : Utils.CacheFile :=
  {| Utils.path := p; Utils.size := Z.to_N (gib * 1024 ^ 3);
     Utils.atime := inject_Z t; Utils.removable := true |}.

Definition cache3 : Utils.Cache :=
  [gib_file "c.flac" 3 3; gib_file "a.flac" 2 1; gib_file "b.flac" 1 2].

(** A server that lets go of the share and then refuses to mount it. *)
Definition refusing_share : Env :=
  env_of [("/mnt/music", ["Artist"])] [] Succeeds Fails.

(** The same three files with the least recently read one held open, so
    that [os.remove] fails on it. *)
Definition pinned_cache : Utils.Cache :=
  [gib_file "c.flac" 3 3;
   {| Utils.path := "a.flac"; Utils.size := Z.to_N (2 * 1024 ^ 3);
      Utils.atime := inject_Z 1; Utils.removable := false |};
   gib_file "b.flac" 1 2].

(** An MPD server that takes every call, and a player that is connected
    to it. *)
Definition willing_server : Player.Server :=
  {| Player.clear_ok := true; Player.add_ok := fun _ => true;
     Player.play_ok := true |}.

Definition connected : Player.P bool := Player.ret true.

(** The first album of the scanned index, as [get_album_by_id] returns
    it. *)
Definition album_a : Library.AlbumInfo :=
  Library.album_info scanned
    {| Library.a_id := 1; Library.a_title := "AlbumA";
       Library.a_artist := "Artist"; Library.a_year := "Unknown Year";
       Library.a_directory := "Artist/AlbumA";
       Library.a_cover_art := Some "Artist/AlbumA/cover.jpg";
       Library.a_last_updated := 1700000000 |}.

End Fixture.


(* ===================================================================== *)
(** * Theorems: sorting *)
(* ===================================================================== *)

Lemma StronglySorted_weaken {A} (R R' : A → A → Prop) l :
  (∀ x y, R x y → R' x y) → StronglySorted R l → StronglySorted R' l.
Proof.
  intros HR. induction 1 as [|x l Hl IH Hx]; constructor; [done|].
  eapply Forall_impl; [exact Hx|]. intros y. apply HR.
Qed.

Section SortFacts.

Context {A : Type} (le : A → A → bool).

Lemma insert_sorted_Permutation x l : insert_sorted le x l ≡ₚ x :: l.
Proof.
  induction l as [|y r IH]; simpl; [done|].
  destruct (le x y); [done|]. rewrite IH. apply Permutation_swap.
Qed.

Lemma sort_by_Permutation l : sort_by le l ≡ₚ l.
Proof.
  induction l as [|x l IH]; simpl; [done|].
  fold (sort_by le l). by rewrite insert_sorted_Permutation, IH.
Qed.

Lemma sort_by_elem x l : x ∈ sort_by le l ↔ x ∈ l.
Proof. by rewrite sort_by_Permutation. Qed.

Lemma sort_by_length l : length (sort_by le l) = length l.
Proof. by rewrite sort_by_Permutation. Qed.

Hypothesis le_total : ∀ x y, le x y = true ∨ le y x = true.
Hypothesis le_trans : ∀ x y z, le x y = true → le y z = true → le x z = true.

Lemma insert_sorted_sorted x l :
  StronglySorted (λ a b, le a b = true) l →
  StronglySorted (λ a b, le a b = true) (insert_sorted le x l).
Proof.
  induction 1 as [|y r Hr IH Hy]; simpl.
  - repeat constructor.
  - destruct (le x y) eqn:E.
    + constructor; [by constructor|].
      constructor; [done|]. eapply Forall_impl; [exact Hy|].
      intros z Hz. by eapply le_trans.
    + constructor; [done|].
      rewrite insert_sorted_Permutation. constructor; [|done].
      destruct (le_total x y); congruence.
Qed.

Lemma sort_by_sorted l : StronglySorted (λ a b, le a b = true) (sort_by le l).
Proof.
  induction l as [|x l IH]; simpl; [constructor|].
  by apply insert_sorted_sorted.
Qed.

End SortFacts.

(* ===================================================================== *)
(** * Theorems: utils.py, clean_cache *)
(* ===================================================================== *)

Section CacheFacts.

Import Utils.

Lemma Qlt_bool_iff a b : Qlt_bool a b = true ↔ (a < b)%Q.
Proof.
  unfold Qlt_bool. rewrite negb_true_iff, <- not_true_iff_false, Qle_bool_iff.
  split; [apply Qnot_le_lt|apply Qlt_not_le].
Qed.

Lemma without_cons ps f fs :
  without ps (f :: fs)
  = if bool_decide (path f ∈ ps) then without ps fs else f :: without ps fs.
Proof. unfold without. cbn [List.filter]. by destruct (bool_decide _). Qed.

Lemma without_nil fs : without [] fs = fs.
Proof.
  induction fs as [|f fs IH]; [done|]. rewrite without_cons, IH.
  rewrite bool_decide_eq_false_2; [done|]. apply not_elem_of_nil.
Qed.

Lemma without_snoc ps p fs :
  List.filter (λ g, negb (bool_decide (path g = p))) (without ps fs)
  = without (ps ++ [p]) fs.
Proof.
  induction fs as [|f fs IH]; [done|]. rewrite !without_cons.
  destruct (decide (path f ∈ ps)) as [Hin|Hout].
  - rewrite (bool_decide_eq_true_2 _ Hin).
    rewrite bool_decide_eq_true_2 by (apply elem_of_app; by left).
    exact IH.
  - rewrite (bool_decide_eq_false_2 _ Hout). cbn [List.filter].
    destruct (decide (path f = p)) as [E|N].
    + rewrite (bool_decide_eq_true_2 _ E). cbn [negb].
      rewrite bool_decide_eq_true_2; [exact IH|].
      apply elem_of_app. right. by apply list_elem_of_singleton.
    + rewrite (bool_decide_eq_false_2 _ N). cbn [negb].
      rewrite bool_decide_eq_false_2; [by rewrite IH|].
      intros [?|?%list_elem_of_singleton]%elem_of_app; done.
Qed.

Lemma without_all ps fs :
  (∀ f, f ∈ fs → path f ∈ ps) → without ps fs = [].
Proof.
  induction fs as [|f fs IH]; intros H; [done|]. rewrite without_cons.
  rewrite bool_decide_eq_true_2 by (apply H; left).
  apply IH. intros g Hg. apply H. by right.
Qed.

Lemma without_elem ps fs f : f ∈ without ps fs ↔ f ∈ fs ∧ path f ∉ ps.
Proof.
  unfold without. rewrite !list_elem_of_In, filter_In. simpl.
  by rewrite negb_true_iff, bool_decide_eq_false, list_elem_of_In.
Qed.

(** [os.remove] of a present, removable file deletes exactly it. *)
Lemma os_remove_present p ps fs :
  (∀ f, f ∈ fs → removable f = true) →
  p ∈ map path fs → p ∉ ps →
  os_remove p (without ps fs) = Some (without (ps ++ [p]) fs).
Proof.
  intros Hrm Hin Hout. unfold os_remove.
  destruct (List.find _ (without ps fs)) as [f|] eqn:E.
  - apply find_some in E as [Hf _].
    apply list_elem_of_In, without_elem in Hf as [Hf _].
    by rewrite (Hrm f Hf), without_snoc.
  - exfalso. apply list_elem_of_In, in_map_iff in Hin as (f & Ef & Hf).
    assert (bool_decide (path f = p) = false) as Hb.
    { apply (find_none _ _ E f).
      apply list_elem_of_In, without_elem. split; [by apply list_elem_of_In|].
      by rewrite Ef. }
    by apply bool_decide_eq_false in Hb.
Qed.

Lemma oldest_first_paths fs : map fst (oldest_first fs) ≡ₚ map path fs.
Proof.
  unfold oldest_first. rewrite sort_by_Permutation, map_map. done.
Qed.

Lemma oldest_first_length fs : length (oldest_first fs) = length fs.
Proof. unfold oldest_first. by rewrite sort_by_length, length_map. Qed.

(** Files leave in ascending order of access time. *)
Lemma oldest_first_sorted fs :
  StronglySorted (λ x y, (snd x <= snd y)%Q) (oldest_first fs).
Proof.
  unfold oldest_first.
  eapply StronglySorted_weaken;
    [|apply (sort_by_sorted (λ x y : string * Q, Qle_bool (snd x) (snd y)))].
  - intros x y H. by apply Qle_bool_iff.
  - intros x y. rewrite !Qle_bool_iff.
    destruct (Qlt_le_dec (snd x) (snd y)); [left; by apply Qlt_le_weak|by right].
  - intros x y z. rewrite !Qle_bool_iff. apply Qle_trans.
Qed.

Lemma after_removing_S fs n p a :
  oldest_first fs !! n = Some (p, a) →
  NoDup (map path fs) → (∀ f, f ∈ fs → removable f = true) →
  os_remove p (after_removing n fs) = Some (after_removing (S n) fs).
Proof.
  intros Hn Hnd Hrm. unfold after_removing.
  rewrite (take_S_r _ _ _ Hn), map_app. simpl.
  apply os_remove_present; [done|..].
  - rewrite <- oldest_first_paths. apply list_elem_of_In, in_map_iff.
    exists (p, a). split; [done|].
    apply list_elem_of_In. by eapply list_elem_of_lookup_2.
  - rewrite <- oldest_first_paths in Hnd.
    rewrite <- (take_drop_middle _ _ _ Hn), map_app in Hnd. simpl in Hnd.
    apply NoDup_app in Hnd as (_ & Hdisj & _).
    intros Hin. apply (Hdisj p Hin). by left.
Qed.

(** The loop from the [n]-th file on: it stops at the first [k > n] that
    brings the size strictly below the threshold, or at the end. *)
Lemma remove_loop_spec max fs :
  NoDup (map path fs) → (∀ f, f ∈ fs → removable f = true) →
  ∀ m n last, (n + m = length (oldest_first fs))%nat →
  ∃ k, (n ≤ k ≤ length (oldest_first fs))%nat ∧ (0 < m → n < k)%nat
    ∧ remove_loop max (drop n (oldest_first fs)) last (after_removing n fs)
      = (after_removing k fs,
         Some (if decide (m = 0%nat) then last
               else Some (size_gb (after_removing k fs))))
    ∧ ((k < length (oldest_first fs))%nat →
       (size_gb (after_removing k fs) < threshold max)%Q)
    ∧ (∀ j, (n < j < k)%nat →
       ¬ (size_gb (after_removing j fs) < threshold max)%Q).
Proof.
  intros Hnd Hrm. induction m as [|m IH]; intros n last Hlen.
  - exists n. rewrite drop_ge by lia. simpl.
    repeat split; lia.
  - destruct (lookup_lt_is_Some_2 (oldest_first fs) n) as [[p a] Hn]; [lia|].
    rewrite (drop_S _ _ _ Hn). cbn [remove_loop].
    rewrite (after_removing_S _ _ _ _ Hn Hnd Hrm).
    fold (threshold max).
    destruct (Qlt_bool _ _) eqn:Hlt.
    + exists (S n). apply Qlt_bool_iff in Hlt.
      repeat split; try lia; done.
    + destruct (IH (S n) (Some (size_gb (after_removing (S n) fs))))
        as (k & Hk & Hpos & E & Hbelow & Hmin); [lia|].
      exists k. rewrite E. repeat split; try lia; try done.
      * f_equal. f_equal. destruct (decide (m = 0%nat)) as [->|]; [|done].
        assert (k = S n) as -> by lia. done.
      * intros j Hj Hlow. destruct (decide (j = S n)) as [->|].
        -- apply Qlt_bool_iff in Hlow. congruence.
        -- apply (Hmin j); [lia|done].
Qed.

Lemma size_gb_nil : (size_gb [] == 0)%Q.
Proof. reflexivity. Qed.

(** C2, as the code has it.  When every cached file can be removed and
    the cache holds more than [max_size_gb >= 0], [clean_cache] removes the
    [k >= 1] least recently accessed files, where [k] is the least number
    that brings the size strictly below 80% of the limit, or all files if
    no number does; afterwards the size is at most 80% of the limit. *)
Theorem clean_cache_evicts_oldest fs max :
  NoDup (map path fs) → (∀ f, f ∈ fs → removable f = true) →
  (0 <= max)%Q → (max < size_gb fs)%Q →
  ∃ k, (1 ≤ k ≤ length fs)%nat
    ∧ clean_cache fs max
      = (after_removing k fs, Cleaned (size_gb (after_removing k fs)))
    ∧ (size_gb (after_removing k fs) <= threshold max)%Q
    ∧ ((k < length fs)%nat →
       (size_gb (after_removing k fs) < threshold max)%Q)
    ∧ (∀ j, (j < k)%nat →
       ¬ (size_gb (after_removing j fs) < threshold max)%Q)
    ∧ StronglySorted (λ x y, (snd x <= snd y)%Q) (oldest_first fs).
Proof.
  intros Hnd Hrm Hmax Hover.
  assert (after_removing 0 fs = fs) as H0 by apply without_nil.
  assert (0 < length fs)%nat as Hne.
  { destruct fs; [|simpl; lia]. exfalso.
    pose proof size_gb_nil as E. rewrite E in Hover. lra. }
  destruct (remove_loop_spec max fs Hnd Hrm (length fs) 0%nat None)
    as (k & Hk & Hpos & E & Hbelow & Hmin).
  { by rewrite oldest_first_length. }
  rewrite oldest_first_length in Hk, Hbelow.
  rewrite drop_0, H0 in E.
  exists k. split; [lia|]. split; [|split; [|split; [done|split]]].
  - unfold clean_cache. apply Qlt_bool_iff in Hover. rewrite Hover.
    fold (oldest_first fs). rewrite E.
    destruct (decide (length fs = 0%nat)); [lia|done].
  - destruct (decide (k < length fs)%nat) as [Hlt|Hge].
    + apply Qlt_le_weak. auto.
    + assert (after_removing k fs = []) as ->.
      { apply without_all. intros f Hf. rewrite firstn_all2.
        - rewrite oldest_first_paths. apply list_elem_of_In, in_map.
          by apply list_elem_of_In.
        - rewrite oldest_first_length. lia. }
      rewrite size_gb_nil. unfold threshold. lra.
  - intros j Hj Hlow. destruct j as [|j].
    + rewrite H0 in Hlow. unfold threshold in Hlow. lra.
    + apply (Hmin (S j)); [lia|done].
  - apply oldest_first_sorted.
Qed.

Lemma clean_cache_evicts_oldest_witness :
  NoDup (map path Fixture.cache3)
  ∧ (∀ f, f ∈ Fixture.cache3 → removable f = true)
  ∧ (0 <= 5)%Q ∧ (5 < size_gb Fixture.cache3)%Q
  ∧ ∃ k, (1 ≤ k ≤ length Fixture.cache3)%nat
      ∧ clean_cache Fixture.cache3 5
        = (after_removing k Fixture.cache3,
           Cleaned (size_gb (after_removing k Fixture.cache3)))
      ∧ (size_gb (after_removing k Fixture.cache3) <= threshold 5)%Q
      ∧ ((k < length Fixture.cache3)%nat →
         (size_gb (after_removing k Fixture.cache3) < threshold 5)%Q)
      ∧ (∀ j, (j < k)%nat →
         ¬ (size_gb (after_removing j Fixture.cache3) < threshold 5)%Q)
      ∧ StronglySorted (λ x y, (snd x <= snd y)%Q)
          (oldest_first Fixture.cache3).
Proof.
  assert (H1 : NoDup (map path Fixture.cache3)).
  { apply (bool_decide_unpack (NoDup (map path Fixture.cache3))).
    vm_compute. exact I. }
  assert (H2 : ∀ f, f ∈ Fixture.cache3 → removable f = true).
  { intros f Hf. unfold Fixture.cache3 in Hf.
    repeat (apply elem_of_cons in Hf as [->|Hf]; [reflexivity|]).
    by apply elem_of_nil in Hf. }
  assert (H3 : (0 <= 5)%Q) by (vm_compute; discriminate).
  assert (H4 : (5 < size_gb Fixture.cache3)%Q) by (vm_compute; reflexivity).
  repeat (split; [assumption|]).
  exact (clean_cache_evicts_oldest Fixture.cache3 5 H1 H2 H3 H4).
Defined.

(** C2 as stated fails: with a 5 GB limit and 6 GiB cached, removing the
    oldest file leaves exactly 4 GiB, which is 80% of the limit, yet the
    sweep removes a second file, because it stops only strictly below. *)
Lemma clean_cache_removes_past_the_margin :
  (5 < size_gb Fixture.cache3)%Q
  ∧ (size_gb (after_removing 1 Fixture.cache3) <= threshold 5)%Q
  ∧ fst (clean_cache Fixture.cache3 5) = after_removing 2 Fixture.cache3
  ∧ map path (after_removing 1 Fixture.cache3) = ["c.flac"; "b.flac"]
  ∧ map path (after_removing 2 Fixture.cache3) = ["c.flac"].
Proof.
  split; [vm_compute; reflexivity|].
  split; [vm_compute; discriminate|].
  split; [vm_compute; reflexivity|].
  split; vm_compute; reflexivity.
Qed.

End CacheFacts.

(* ===================================================================== *)
(** * Theorems: network_handler.py *)
(* ===================================================================== *)

Section NetFacts.

Import Net.
Local Open Scope net_scope.
Variable cfg : Config.t.
Variable env : Env.

Local Abbreviation steady := (steady env).
Local Abbreviation hopeless := (hopeless env).
Local Abbreviation cache_file := (cache_file cfg).
Local Abbreviation network_file := (network_file cfg).

Local Ltac run :=
  repeat (progress (cbv [bind ret emit logger get_mounted get_copied
                         set_mounted add_copied] in *; simpl in * )).

Local Ltac grows := simpl; repeat (apply suffix_cons_r); reflexivity.

Lemma bind_run {A B} (m : M A) (f : A → M B) s a s' :
  m s = (a, s') → bind m f s = f a s'.
Proof. unfold bind. by intros ->. Qed.

(** The mount-table query answers with the mount state, unless it raises. *)
Lemma is_mounted_spec s :
  ∃ s', is_mounted env s = (negb (probe_raises env) && mounted s, s')
        ∧ mounted s' = mounted s ∧ copied s' = copied s
        ∧ events s `suffix_of` events s'.
Proof.
  unfold is_mounted, execute_command, shell. run.
  destruct (probe_raises env), (mounted s) eqn:E; run;
    (eexists; split; [reflexivity|]; repeat split; try done; grows).
Qed.

Lemma quiet_refl s : quiet s s.
Proof. by repeat split. Qed.

Lemma quiet_trans s1 s2 s3 : quiet s1 s2 → quiet s2 s3 → quiet s1 s3.
Proof.
  intros (?&?&?) (?&?&?). repeat split; try congruence. by etrans.
Qed.

Local Ltac mount_cases s :=
  unfold ensure_mounted, mount_share, unmount_share, is_mounted,
    execute_command, shell; run;
  destruct (probe_raises env) eqn:Hprobe, (mounted s) eqn:Hmounted,
    (umount_outcome env) eqn:Humount, (mount_outcome env) eqn:Hmount;
  run.

(** C1 does not hold of the code.  Where the share is mounted and
    [umount] exits non-zero, [execute_command] turns the failure into
    [None], [unmount_share] never looks at that result and answers
    [True], and the share is still mounted. *)
Theorem unmount_share_failed_umount s :
  probe_raises env = false → mounted s = true →
  umount_outcome env = Fails →
  ∃ s', unmount_share env s = (true, s') ∧ mounted s' = true.
Proof.
  intros Hp Hm Hu. unfold unmount_share, is_mounted, execute_command, shell.
  run. rewrite Hp. run. rewrite Hm. run. rewrite Hu. run.
  eexists; split; [reflexivity|done].
Qed.

(** When [umount] succeeds the share is gone and the answer is [True];
    when the share was not mounted nothing is run and the answer is
    [True]. *)
Lemma unmount_share_ok s :
  probe_raises env = false →
  (mounted s = false ∨ umount_outcome env = Succeeds) →
  ∃ s', unmount_share env s = (true, s') ∧ mounted s' = false.
Proof.
  intros Hp H. mount_cases s; try discriminate; destruct H; try discriminate;
    (eexists; split; [reflexivity|done]).
Qed.

Lemma ensure_mounted_ready s :
  ready env s →
  ∃ s', ensure_mounted cfg env s = (true, s') ∧ quiet s s'.
Proof.
  intros [Hp Hm]. unfold ensure_mounted, is_mounted, execute_command, shell.
  run. rewrite Hp. run. rewrite Hm. run.
  eexists; split; [reflexivity|]. repeat split; simpl; try done. grows.
Qed.

(** Whatever the start, a successful [ensure_mounted] leaves the share
    mounted and the mount-table query working. *)
Lemma ensure_mounted_true s s' :
  ensure_mounted cfg env s = (true, s') →
  ready env s' ∧ copied s' = copied s ∧ events s `suffix_of` events s'.
Proof.
  mount_cases s; intros [= <-]; (split; [by split|]); (split; [done|grows]).
Qed.

Lemma ensure_mounted_false s s' :
  ensure_mounted cfg env s = (false, s') →
  hopeless s' ∧ copied s' = copied s ∧ events s `suffix_of` events s'.
Proof.
  unfold Net.hopeless.
  mount_cases s; intros [= <-]; simpl;
    (split; [first [by left | by right]|]); (split; [done|grows]).
Qed.

Lemma ensure_mounted_hopeless s :
  hopeless s → ∃ s', ensure_mounted cfg env s = (false, s') ∧ hopeless s'.
Proof.
  unfold Net.hopeless. intros H.
  mount_cases s; destruct H as [H|[H1 H2]]; try discriminate; try done;
    (eexists; split; [reflexivity|]); simpl; first [by left | by right].
Qed.

(** ** [get_file_path] *)

(** C5.  With caching enabled and an entry present at the cache path of
    [relative_path], [get_file_path] returns that cache path; the only
    thing it does is the existence test on the cache path itself: no
    shell command, no access to the share, mount table and cache
    unchanged. *)
Theorem get_file_path_cache_hit relative_path s :
  Config.CACHE_ENABLED cfg = true →
  fst (os_path_exists cfg env (cache_file relative_path) s) = true →
  get_file_path cfg env relative_path s =
    (Some (cache_file relative_path),
     {| mounted := mounted s; copied := copied s;
        events := Stat (cache_file relative_path) :: events s |}).
Proof.
  intros Hen Hhit. unfold get_file_path. rewrite Hen.
  unfold Net.cache_file in *. unfold bind at 1.
  destruct (os_path_exists cfg env _ s) as [hit s1] eqn:E.
  simpl in Hhit. subst hit.
  unfold os_path_exists, visible in E. run. by injection E as _ <-.
Qed.


(** ** Computations on a share that stays mounted *)

Lemma ready_quiet s s' : ready env s → quiet s s' → ready env s'.
Proof. intros [? ?] (?&?&?). split; congruence. Qed.

Lemma quiet_copied s s' : quiet s s' → copied s' = copied s.
Proof. by intros (_ & ? & _). Qed.

Lemma quiet_emit s0 s e :
  quiet s0 s →
  quiet s0 {| mounted := mounted s; copied := copied s;
              events := e :: events s |}.
Proof.
  intros (?&?&?). repeat split; simpl; try done. by apply suffix_cons_r.
Qed.

Lemma steady_ensure_mounted : steady (ensure_mounted cfg env) (λ _, true).
Proof. intros s Hs. by apply ensure_mounted_ready. Qed.

Lemma steady_exists path :
  steady (os_path_exists cfg env path)
    (λ c, bool_decide (path ∈ c) || exists_ env path).
Proof.
  intros s [Hp Hm]. unfold os_path_exists, visible. run. rewrite Hm.
  rewrite orb_true_r. simpl.
  eexists; split; [reflexivity|]. repeat split; try done. grows.
Qed.

Lemma steady_isdir path :
  steady (os_path_isdir cfg env path) (λ _, isdir env path).
Proof.
  intros s [Hp Hm]. unfold os_path_isdir, visible. run. rewrite Hm.
  rewrite orb_true_r. simpl.
  eexists; split; [reflexivity|]. repeat split; try done. grows.
Qed.

Lemma steady_isfile path :
  steady (os_path_isfile cfg env path) (λ _, isfile env path).
Proof.
  intros s [Hp Hm]. unfold os_path_isfile, visible. run. rewrite Hm.
  rewrite orb_true_r. simpl.
  eexists; split; [reflexivity|]. repeat split; try done. grows.
Qed.

Lemma steady_listdir path :
  steady (os_listdir cfg env path) (λ _, listdir env path).
Proof.
  intros s [Hp Hm]. unfold os_listdir, visible. run. rewrite Hm.
  rewrite orb_true_r. simpl.
  eexists; split; [reflexivity|]. repeat split; try done. grows.
Qed.

Lemma steady_tags path :
  steady (TinyTag_get cfg env path) (λ _, tags env path).
Proof.
  intros s [Hp Hm]. unfold TinyTag_get, visible. run. rewrite Hm.
  rewrite orb_true_r. simpl.
  eexists; split; [reflexivity|]. repeat split; try done. grows.
Qed.

Lemma steady_keep_if (pred : string → M bool) (p : string → bool) dir names :
  (∀ path, steady (pred path) (λ _, p path)) →
  steady (keep_if pred dir names)
    (λ _, List.filter (λ d, p (Py.join dir d)) names).
Proof.
  intros Hpred. induction names as [|d rest IH]; intros s Hs; simpl.
  - exists s. split; [done|apply quiet_refl].
  - destruct (Hpred (Py.join dir d) s Hs) as (s1 & E1 & Q1).
    destruct (IH s1 (ready_quiet _ _ Hs Q1)) as (s2 & E2 & Q2).
    rewrite (bind_run _ _ _ _ _ E1), (bind_run _ _ _ _ _ E2).
    exists s2. split; [|by eapply quiet_trans].
    unfold ret. by destruct (p (Py.join dir d)).
Qed.

Lemma steady_list_directories path :
  steady (list_directories cfg env path) (λ _, dirs_of cfg env path).
Proof.
  intros s Hs. unfold list_directories, dirs_of.
  destruct (steady_ensure_mounted s Hs) as (s1 & E1 & Q1).
  pose proof (ready_quiet _ _ Hs Q1) as Hs1.
  destruct (steady_listdir (full_path cfg path) s1 Hs1) as (s2 & E2 & Q2).
  pose proof (ready_quiet _ _ Hs1 Q2) as Hs2.
  rewrite (bind_run _ _ _ _ _ E1). simpl.
  rewrite (bind_run _ _ _ _ _ E2).
  pose proof (quiet_trans _ _ _ Q1 Q2) as Q.
  destruct (listdir env _) as [names|].
  - destruct (steady_keep_if _ _ (full_path cfg path) names
                (steady_isdir) s2 Hs2) as (s3 & E3 & Q3).
    exists s3. split; [done|by eapply quiet_trans].
  - unfold logger, emit, bind, ret. eexists; split; [reflexivity|].
    by apply quiet_emit.
Qed.

Lemma steady_list_files path pat :
  steady (list_files cfg env path pat) (λ _, files_of cfg env path pat).
Proof.
  intros s Hs. unfold list_files, files_of.
  destruct (steady_ensure_mounted s Hs) as (s1 & E1 & Q1).
  pose proof (ready_quiet _ _ Hs Q1) as Hs1.
  destruct (steady_listdir (full_path cfg path) s1 Hs1) as (s2 & E2 & Q2).
  pose proof (ready_quiet _ _ Hs1 Q2) as Hs2.
  rewrite (bind_run _ _ _ _ _ E1). simpl.
  rewrite (bind_run _ _ _ _ _ E2).
  pose proof (quiet_trans _ _ _ Q1 Q2) as Q.
  destruct (listdir env _) as [names|].
  - destruct (steady_keep_if _ _ (full_path cfg path) names
                (steady_isfile) s2 Hs2) as (s3 & E3 & Q3).
    rewrite (bind_run _ _ _ _ _ E3).
    exists s3. split; [done|by eapply quiet_trans].
  - unfold logger, emit, bind, ret. eexists; split; [reflexivity|].
    by apply quiet_emit.
Qed.

End NetFacts.

Lemma unmount_share_failed_umount_witness :
  Net.probe_raises Fixture.busy_share = false
  ∧ Net.mounted (Fixture.start true) = true
  ∧ Net.umount_outcome Fixture.busy_share = Net.Fails
  ∧ ∃ s', Net.unmount_share Fixture.busy_share (Fixture.start true) = (true, s')
          ∧ Net.mounted s' = true.
Proof.
  repeat (split; [reflexivity|]).
  exact (unmount_share_failed_umount Fixture.busy_share (Fixture.start true)
           eq_refl eq_refl eq_refl).
Defined.

Lemma get_file_path_cache_hit_witness :
  Config.CACHE_ENABLED Config.shipped = true
  ∧ fst (Net.os_path_exists Config.shipped Fixture.share
           (Net.cache_file Config.shipped Fixture.cached_track) Fixture.warm) = true
  ∧ Net.get_file_path Config.shipped Fixture.share Fixture.cached_track Fixture.warm
    = (Some (Net.cache_file Config.shipped Fixture.cached_track),
       {| Net.mounted := Net.mounted Fixture.warm;
          Net.copied := Net.copied Fixture.warm;
          Net.events :=
            Net.Stat (Net.cache_file Config.shipped Fixture.cached_track)
            :: Net.events Fixture.warm |}).
Proof.
  assert (H : fst (Net.os_path_exists Config.shipped Fixture.share
                     (Net.cache_file Config.shipped Fixture.cached_track)
                     Fixture.warm) = true) by (vm_compute; reflexivity).
  split; [reflexivity|]. split; [exact H|].
  exact (get_file_path_cache_hit Config.shipped Fixture.share
           Fixture.cached_track Fixture.warm eq_refl H).
Defined.


(* ===================================================================== *)
(** * Theorems: tables under INSERT OR REPLACE *)
(* ===================================================================== *)

Section TableFacts.

Import Library.
Context {R X : Type} (key : R → string) (rid : R → Z).

Lemma next_rowid_gt (ids : list Z) i : i ∈ ids → i < next_rowid ids.
Proof.
  unfold next_rowid. induction ids as [|j ids IH]; simpl.
  - by intros ?%elem_of_nil.
  - intros [->|H]%elem_of_cons; [lia|]. specialize (IH H). lia.
Qed.

Lemma next_rowid_pos (ids : list Z) : 0 < next_rowid ids.
Proof. unfold next_rowid. induction ids; simpl; lia. Qed.

Lemma next_rowid_app (ids1 ids2 : list Z) :
  next_rowid (ids1 ++ ids2) = Z.max (next_rowid ids1) (next_rowid ids2).
Proof.
  pose proof (next_rowid_pos ids2). unfold next_rowid in *.
  induction ids1; simpl; lia.
Qed.

Lemma next_rowid_filter (P : R → Prop) `{∀ r, Decision (P r)} (tbl : list R) :
  next_rowid (map rid (filter P tbl)) ≤ next_rowid (map rid tbl).
Proof.
  unfold next_rowid. induction tbl as [|r tbl IH]; simpl; [lia|].
  rewrite filter_cons. destruct (decide (P r)); simpl; lia.
Qed.

Section One.

Variables (k : string) (mk : Z → R) (tbl : list R).
Hypothesis mk_key : ∀ i, key (mk i) = k.
Hypothesis mk_rid : ∀ i, rid (mk i) = i.

Lemma upsert_elem r :
  r ∈ upsert key rid k mk tbl ↔
  (r ∈ tbl ∧ key r ≠ k) ∨ r = mk (next_rowid (map rid tbl)).
Proof.
  unfold upsert. rewrite elem_of_app, list_elem_of_filter, list_elem_of_singleton.
  split; [intros [[? ?]|?]|intros [[? ?]|?]]; auto.
Qed.

Lemma upsert_keys x :
  x ∈ map key (upsert key rid k mk tbl) ↔ x ∈ map key tbl ∨ x = k.
Proof.
  rewrite !list_elem_of_In, !in_map_iff. split.
  - intros (r & <- & Hr%list_elem_of_In%upsert_elem).
    destruct Hr as [[Hr _]| ->]; [left|right; apply mk_key].
    exists r. by rewrite <- list_elem_of_In.
  - intros [(r & <- & Hr%list_elem_of_In)| ->].
    + destruct (decide (key r = k)) as [E|N].
      * exists (mk (next_rowid (map rid tbl))). rewrite <- list_elem_of_In.
        split; [by rewrite mk_key|]. apply upsert_elem. by right.
      * exists r. rewrite <- list_elem_of_In. split; [done|].
        apply upsert_elem. by left.
    + exists (mk (next_rowid (map rid tbl))). rewrite <- list_elem_of_In.
      split; [apply mk_key|]. apply upsert_elem. by right.
Qed.

Lemma upsert_NoDup_keys :
  NoDup (map key tbl) → NoDup (map key (upsert key rid k mk tbl)).
Proof.
  intros Hnd. unfold upsert. rewrite map_app. apply NoDup_app. split; [|split].
  - clear -Hnd. induction tbl as [|r t IH]; [constructor|].
    simpl in Hnd. apply NoDup_cons in Hnd as [Hr Ht].
    rewrite filter_cons. destruct (decide (key r ≠ k)); [|by apply IH].
    simpl. apply NoDup_cons. split; [|by apply IH].
    intros Hin. apply Hr.
    apply list_elem_of_In, in_map_iff in Hin as (r' & E & Hin).
    apply list_elem_of_In, list_elem_of_filter in Hin as [_ Hin].
    rewrite <- E. apply list_elem_of_In, in_map. by apply list_elem_of_In.
  - intros x Hx Hk. simpl in Hk. apply list_elem_of_singleton in Hk.
    rewrite mk_key in Hk. subst x.
    apply list_elem_of_In, in_map_iff in Hx as (r' & E & Hin).
    apply list_elem_of_In, list_elem_of_filter in Hin as [N _]. by apply N.
  - simpl. apply NoDup_singleton.
Qed.

Lemma upsert_next_rowid :
  next_rowid (map rid (upsert key rid k mk tbl))
  = next_rowid (map rid tbl) + 1.
Proof.
  unfold upsert. rewrite map_app, next_rowid_app. simpl.
  rewrite mk_rid.
  pose proof (next_rowid_filter (λ r, key r ≠ k) tbl).
  pose proof (next_rowid_pos (map rid tbl)).
  unfold next_rowid at 2. simpl. lia.
Qed.

End One.

Section Run.

Variables (kf : X → string) (mk : X → Z → R).
Hypothesis mk_key : ∀ x i, key (mk x i) = kf x.
Hypothesis mk_rid : ∀ x i, rid (mk x i) = i.

Lemma upserts_app tbl xs ys :
  upserts key rid kf mk tbl (xs ++ ys)
  = upserts key rid kf mk (upserts key rid kf mk tbl xs) ys.
Proof. apply foldl_app. Qed.

Lemma upserts_keys tbl xs k :
  k ∈ map key (upserts key rid kf mk tbl xs) ↔
  k ∈ map key tbl ∨ k ∈ map kf xs.
Proof.
  revert tbl. induction xs as [|x xs IH]; intros tbl; simpl.
  - rewrite elem_of_nil. tauto.
  - rewrite IH, upsert_keys by auto. rewrite elem_of_cons. tauto.
Qed.

Lemma upserts_NoDup_keys tbl xs :
  NoDup (map key tbl) → NoDup (map key (upserts key rid kf mk tbl xs)).
Proof.
  revert tbl. induction xs as [|x xs IH]; intros tbl H; simpl; [done|].
  apply IH, upsert_NoDup_keys; auto.
Qed.

Lemma upserts_next_rowid tbl xs :
  next_rowid (map rid (upserts key rid kf mk tbl xs))
  = next_rowid (map rid tbl) + Z.of_nat (length xs).
Proof.
  revert tbl. induction xs as [|x xs IH]; intros tbl; simpl; [lia|].
  rewrite IH, upsert_next_rowid by auto. lia.
Qed.

(** Every row after the run is an old row whose key was not written,
    or a row the run inserted, with a rowid no old row has. *)
Lemma upserts_origin tbl xs r :
  r ∈ upserts key rid kf mk tbl xs →
  (r ∈ tbl ∧ key r ∉ map kf xs)
  ∨ (∃ x i, x ∈ xs ∧ r = mk x i ∧ next_rowid (map rid tbl) ≤ i).
Proof.
  revert tbl. induction xs as [|x xs IH]; intros tbl; simpl.
  - intros H. left. split; [done|]. by intros ?%elem_of_nil.
  - intros [[Hr Hk]|(y & i & Hy & -> & Hi)]%IH.
    + apply upsert_elem in Hr as [[Hr Hne]| ->].
      * left. split; [done|].
        intros [E|H]%elem_of_cons; [done|by apply Hk].
      * right. exists x, (next_rowid (map rid tbl)).
        split; [left|split; [done|lia]].
    + right. exists y, i. split; [by right|split; [done|]].
      rewrite upsert_next_rowid in Hi by auto. lia.
Qed.

(** A written key is held afterwards by an inserted row only. *)
Lemma upserts_fresh tbl xs r :
  r ∈ upserts key rid kf mk tbl xs → key r ∈ map kf xs →
  (rid r ∉ map rid tbl) ∧ (∃ x i, x ∈ xs ∧ r = mk x i).
Proof.
  intros [[_ Hk]|(x & i & Hx & -> & Hi)]%upserts_origin Hin; [done|].
  split; [|by exists x, i].
  rewrite mk_rid. intros Hold%next_rowid_gt. lia.
Qed.

(** The rowid of an old row whose key is written is in use no more. *)
Lemma upserts_gone tbl xs a :
  NoDup (map rid tbl) → a ∈ tbl → key a ∈ map kf xs →
  rid a ∉ map rid (upserts key rid kf mk tbl xs).
Proof.
  intros Hnd Ha Hk Hin.
  apply list_elem_of_In, in_map_iff in Hin as (r & E & Hr).
  apply list_elem_of_In, upserts_origin in Hr
    as [[Hr Hkr]|(x & i & Hx & -> & Hi)].
  - assert (r = a) as ->; [|done].
    clear -Hnd Ha Hr E. induction tbl as [|b t IH]; [by apply elem_of_nil in Ha|].
    simpl in Hnd. apply NoDup_cons in Hnd as [Hb Ht].
    apply elem_of_cons in Ha as [->|Ha], Hr as [->|Hr]; try done.
    + exfalso. apply Hb. rewrite <- E. apply list_elem_of_In, in_map.
      by apply list_elem_of_In.
    + exfalso. apply Hb. rewrite E. apply list_elem_of_In, in_map.
      by apply list_elem_of_In.
    + by apply IH.
  - rewrite mk_rid in E. subst i.
    assert (rid a < next_rowid (map rid tbl)); [|lia].
    apply next_rowid_gt, list_elem_of_In, in_map. by apply list_elem_of_In.
Qed.


End Run.

(** Writing keys that were all written before leaves the row count as
    it is. *)
Lemma upserts_again_length (kf : X → string) (mk1 mk2 : X → Z → R) tbl xs ys :
  (∀ x i, key (mk1 x i) = kf x) → (∀ x i, key (mk2 x i) = kf x) →
  NoDup (map key tbl) → map kf ys = map kf xs →
  length (upserts key rid kf mk2 (upserts key rid kf mk1 tbl xs) ys)
  = length (upserts key rid kf mk1 tbl xs).
Proof.
  intros K1 K2 Hnd Hkeys.
  set (t1 := upserts key rid kf mk1 tbl xs).
  assert (NoDup (map key t1)) as N1 by by apply upserts_NoDup_keys.
  assert (NoDup (map key (upserts key rid kf mk2 t1 ys))) as N2
    by by apply upserts_NoDup_keys.
  rewrite <- (length_map key), <- (length_map key t1).
  apply Permutation_length, NoDup_Permutation; [done..|].
  intros k. rewrite (upserts_keys kf mk2 K2), Hkeys.
  unfold t1. rewrite (upserts_keys kf mk1 K1). tauto.
Qed.

End TableFacts.

(* ===================================================================== *)
(** * Theorems: what a scan does to the store *)
(* ===================================================================== *)

Section StoreFacts.

Import Net Library.
Variable cfg : Config.t.
Variable env : Env.

Local Abbreviation music_files_of := (music_files_of cfg env).
Local Abbreviation has_music := (has_music cfg env).
Local Abbreviation mk_album := (mk_album cfg env).
Local Abbreviation mk_track := (mk_track cfg env).
Local Abbreviation paths_in := (paths_in cfg env).
Local Abbreviation items_of := (items_of cfg env).
Local Abbreviation process_pure := (process_pure cfg env).
Local Abbreviation visit := (visit cfg env).
Local Abbreviation candidates := (candidates cfg env).

Lemma mk_album_directory c d i : a_directory (mk_album c d i) = d.
Proof.
  unfold Library.mk_album, album_row. by destruct (album_meta _ _ _ _) as [[? ?] ?].
Qed.

Lemma mk_album_id c d i : a_id (mk_album c d i) = i.
Proof.
  unfold Library.mk_album, album_row. by destruct (album_meta _ _ _ _) as [[? ?] ?].
Qed.

Lemma mk_track_path x i : t_file_path (mk_track x i) = item_path x.
Proof.
  destruct x as [[[d j] a] f]. unfold Library.mk_track, track_row, item_path.
  by destruct (tags env _).
Qed.

Lemma mk_track_id x i : t_id (mk_track x i) = i.
Proof.
  destruct x as [[[d j] a] f]. unfold Library.mk_track, track_row.
  by destruct (tags env _).
Qed.

Lemma items_of_paths c db d : map item_path (items_of c db d) = paths_in d.
Proof.
  unfold Library.items_of, Library.paths_in. rewrite map_map. by apply map_ext.
Qed.

Lemma process_pure_no_music c db d :
  has_music d = false → process_pure c db d = (0, db).
Proof.
  unfold Library.has_music, Library.process_pure.
  by destruct (Library.music_files_of _ _ _).
Qed.

Lemma process_pure_music c db d :
  has_music d = true →
  process_pure c db d =
    (1, {| albums := upsert a_directory a_id d (mk_album c d) (albums db);
           tracks := upserts t_file_path t_id item_path mk_track (tracks db)
                       (items_of c db d) |}).
Proof.
  unfold Library.has_music, Library.process_pure, Library.items_of, Library.mk_album.
  destruct (Library.music_files_of _ _ _) as [|f0 more] eqn:E; [done|].
  intros _. f_equal. f_equal. unfold upserts. simpl hd.
  generalize (a_artist (album_row cfg env c d f0 (next_rowid (map a_id (albums db))))).
  generalize (next_rowid (map a_id (albums db))).
  generalize (tracks db). generalize (f0 :: more). clear.
  intros l. induction l as [|f l IH]; intros tbl i a; simpl; [done|].
  rewrite IH. reflexivity.
Qed.

(** The store after visiting a list of candidate directories. *)
Lemma visits_store c cs n db :
  ∃ items,
    foldl (visit c) (n, db) cs =
      (n + Z.of_nat (length (List.filter has_music cs)),
       {| albums := upserts a_directory a_id id (mk_album c) (albums db)
                      (List.filter has_music cs);
          tracks := upserts t_file_path t_id item_path mk_track (tracks db)
                      items |})
    ∧ map item_path items = flat_map paths_in cs.
Proof.
  revert n db. induction cs as [|d cs IH]; intros n db; simpl.
  - exists []. split; [|done]. destruct db. simpl. f_equal. lia.
  - unfold Library.visit at 2. simpl.
    destruct (has_music d) eqn:Hm.
    + rewrite (process_pure_music _ _ _ Hm). simpl.
      destruct (IH (n + 1)
        {| albums := upsert a_directory a_id d (mk_album c d) (albums db);
           tracks := upserts t_file_path t_id item_path mk_track (tracks db)
                       (items_of c db d) |}) as (items & E & Hp).
      exists (items_of c db d ++ items). rewrite E. simpl. split.
      * f_equal; [lia|]. f_equal. by rewrite upserts_app.
      * by rewrite map_app, items_of_paths, Hp.
    + rewrite (process_pure_no_music _ _ _ Hm). simpl.
      destruct (IH (n + 0) db) as (items & E & Hp).
      exists items. rewrite E. split; [f_equal; lia|].
      rewrite Hp. unfold Library.paths_in, Library.has_music in *.
      by destruct (Library.music_files_of _ _ _).
Qed.

End StoreFacts.

(* ===================================================================== *)
(** * Theorems: paths *)
(* ===================================================================== *)

Section PathFacts.



End PathFacts.

(* ===================================================================== *)
(** * Theorems: music_library.py, the queries *)
(* ===================================================================== *)

Section QueryFacts.

Import Library.

Lemma elem_of_take_elem {A} (x : A) n l : x ∈ take n l → x ∈ l.
Proof.
  intros H. rewrite <- (take_drop n l). apply elem_of_app. by left.
Qed.

Lemma select_albums_rows query db a :
  a ∈ select_albums query db →
  a ∈ albums db
  ∧ (like (a_title a) ("%" +:+ query +:+ "%")
     || like (a_artist a) ("%" +:+ query +:+ "%")) = true.
Proof.
  unfold select_albums. intros H%elem_of_take_elem%sort_by_elem.
  apply list_elem_of_In, filter_In in H as [H1 H2].
  split; [by apply list_elem_of_In|done].
Qed.

(** What [search_albums] returns are rows of the albums table. *)
Lemma search_albums_rows query db ai :
  ai ∈ search_albums query db →
  ∃ a, a ∈ albums db ∧ ai = album_info db a.
Proof.
  unfold search_albums. intros H.
  apply list_elem_of_In, in_map_iff in H as (a & <- & Ha).
  exists a. split; [|done].
  by apply list_elem_of_In, select_albums_rows in Ha as [? _].
Qed.

Lemma get_album_by_id_absent album_id db :
  album_id ∉ map a_id (albums db) → get_album_by_id album_id db = None.
Proof.
  intros Hout. unfold get_album_by_id.
  destruct (List.find _ (albums db)) as [row|] eqn:E; [|done].
  exfalso. apply find_some in E as [Hin Hb]. apply Hout.
  apply bool_decide_eq_true in Hb. rewrite <- Hb.
  apply list_elem_of_In, in_map. exact Hin.
Qed.

(** ** LIKE with the pattern [%query%] *)

Lemma like_chars_star p s :
  like_chars ("%"%char :: p) s
  = like_chars p s
    || match s with [] => false | _ :: s' => like_chars ("%"%char :: p) s' end.
Proof. by destruct s. Qed.

Lemma like_chars_percent s : like_chars ["%"%char] s = true.
Proof.
  induction s as [|d s IH]; [done|]. rewrite like_chars_star, IH.
  apply orb_true_r.
Qed.







(** ** Order and size of the results *)


Lemma StronglySorted_map_keeps {A B} (R : B → B → Prop) (f : A → B) l :
  StronglySorted (λ x y, R (f x) (f y)) l → StronglySorted R (map f l).
Proof.
  induction 1 as [|x l Hl IH Hx]; cbn; constructor; [done|].
  apply Forall_forall. intros y Hy.
  apply list_elem_of_In, in_map_iff in Hy as (z & <- & Hz).
  eapply Forall_forall in Hx; [exact Hx|by apply list_elem_of_In].
Qed.

Lemma string_leb_total x y : String.leb x y = true ∨ String.leb y x = true.
Proof. apply String.leb_total. Qed.

Lemma string_leb_trans x y z :
  String.leb x y = true → String.leb y z = true → String.leb x z = true.
Proof.
  intros H1%Is_true_true H2%Is_true_true. apply Is_true_true.
  change (String.le x z). by etrans.
Qed.

Lemma track_le_total x y : track_le x y = true ∨ track_le y x = true.
Proof.
  unfold track_le.
  destruct (Z.lt_total (t_disc_number x) (t_disc_number y)) as [H|[H|H]].
  - left. apply orb_true_iff. left. by apply Z.ltb_lt.
  - destruct (Z.lt_total (t_track_number x) (t_track_number y)) as [K|[K|K]].
    + left. rewrite H, Z.eqb_refl. apply Z.ltb_lt in K. rewrite K.
      apply orb_true_r.
    + destruct (string_leb_total (t_title x) (t_title y)) as [L|L].
      * left. rewrite H, K, !Z.eqb_refl, L. cbn. by rewrite !orb_true_r.
      * right. rewrite H, K, !Z.eqb_refl, L. cbn. by rewrite !orb_true_r.
    + right. rewrite H, Z.eqb_refl. apply Z.ltb_lt in K. rewrite K.
      apply orb_true_r.
  - right. apply orb_true_iff. left. by apply Z.ltb_lt.
Qed.

Lemma track_le_order x y :
  track_le x y = true ↔ track_order (track_info x) (track_info y).
Proof.
  unfold track_le, track_order. cbn.
  rewrite !orb_true_iff, !andb_true_iff, !orb_true_iff, !andb_true_iff.
  rewrite !Z.ltb_lt, !Z.eqb_eq. done.
Qed.

Lemma track_le_trans x y z :
  track_le x y = true → track_le y z = true → track_le x z = true.
Proof.
  rewrite !track_le_order. unfold track_order. cbn.
  intros [H|[H [K|[K L]]]] [H'|[H' [K'|[K' L']]]];
    try (left; lia); try (right; split; [lia|left; lia]).
  right. split; [lia|]. right. split; [lia|]. by eapply string_leb_trans.
Qed.



End QueryFacts.

(* ===================================================================== *)
(** * Theorems: music_library.py, the scanner against the share *)
(* ===================================================================== *)

Section ScanFacts.

Import Net Library.
Local Open Scope net_scope.
Variable cfg : Config.t.
Variable env : Env.

Local Abbreviation steady := (steady env).
Local Abbreviation ready := (ready env).

(** Run the next bound computation with its steadiness lemma [H]. *)
Local Ltac step H s1 E Q :=
  match goal with
  | Hs : ready ?s |- context [bind _ _ ?s] =>
      destruct (H s Hs) as (s1 & E & Q);
      rewrite (bind_run _ _ _ _ _ E);
      let Hs1 := fresh "Hs" in
      pose proof (ready_quiet env _ _ Hs Q) as Hs1;
      clear Hs
  end.

(** Close a [quiet] goal along the chain of steps in the context. *)
Local Ltac chain :=
  repeat first
    [ assumption
    | apply quiet_refl
    | apply quiet_emit
    | eapply quiet_trans; [eassumption|] ].

Lemma steady_collect dir exts :
  steady (collect_music_files cfg env dir exts)
    (λ _, flat_map (λ ext, files_of cfg env dir (Some (Py.ExtPattern ext))) exts).
Proof.
  induction exts as [|ext rest IH]; intros s Hs; simpl.
  - exists s. split; [done|apply quiet_refl].
  - step (steady_list_files cfg env dir (Some (Py.ExtPattern ext))) s1 E1 Q1.
    step IH s2 E2 Q2.
    exists s2. split; [done|chain].
Qed.

Lemma steady_music_files dir :
  steady (collect_music_files cfg env dir SUPPORTED_FORMATS)
    (λ _, music_files_of cfg env dir).
Proof. apply steady_collect. Qed.

Lemma steady_cover album_dir names :
  steady (find_cover_art cfg env album_dir names)
    (λ c, cover_of cfg env c album_dir names).
Proof.
  induction names as [|art rest IH]; intros s Hs; simpl.
  - exists s. split; [done|apply quiet_refl].
  - step (steady_exists cfg env
            (Py.join (Config.MOUNT_POINT cfg) (Py.join album_dir art))) s1 E1 Q1.
    destruct (_ || _).
    + exists s1. split; [done|done].
    + destruct (IH s1 Hs0) as (s2 & E2 & Q2). exists s2.
      rewrite E2, (quiet_copied _ _ Q1). split; [done|chain].
Qed.

Lemma steady_process_tracks album_dir album_id album_artist music_files tbl :
  steady (process_tracks cfg env album_dir album_id album_artist music_files tbl)
    (λ _, foldl (upsert_track cfg env album_dir album_id album_artist)
            tbl music_files).
Proof.
  revert tbl. induction music_files as [|f rest IH]; intros tbl s Hs; simpl.
  - exists s. split; [done|apply quiet_refl].
  - step (steady_tags cfg env
            (Py.join (Config.MOUNT_POINT cfg) (Py.join album_dir f))) s1 E1 Q1.
    unfold upsert_track at 2, track_row.
    destruct (tags env _) as [tag|].
    + unfold ret at 1. unfold bind at 1.
      match goal with |- context [process_tracks _ _ _ _ _ _ ?t ?st] =>
        destruct (IH t st) as (s2 & E2 & Q2) end; [done|].
      exists s2. split; [exact E2|chain].
    + unfold logger, emit, ret, bind at 1. unfold bind at 1.
      match goal with |- context [process_tracks _ _ _ _ _ _ ?t ?st] =>
        destruct (IH t st) as (s2 & E2 & Q2) end.
      { eapply ready_quiet; [exact Hs0|chain]. }
      exists s2. split; [exact E2|].
      eapply quiet_trans; [|exact Q2]. chain.
Qed.

Lemma steady_process album_dir db :
  steady (_process_album_directory cfg env album_dir db)
    (λ c, process_pure cfg env c db album_dir).
Proof.
  intros s Hs. unfold _process_album_directory, process_pure.
  step (steady_music_files album_dir) s1 E1 Q1.
  destruct (music_files_of cfg env album_dir) as [|first_file more] eqn:Emf.
  { exists s1. split; [done|done]. }
  step (steady_cover album_dir COVER_NAMES) s2 E2 Q2.
  step (steady_tags cfg env
          (Py.join (Py.join (Config.MOUNT_POINT cfg) album_dir) first_file))
    s3 E3 Q3.
  unfold album_row, album_meta, insert_or_replace_album.
  rewrite (quiet_copied _ _ Q1).
  destruct (tags env _) as [tag|].
  - unfold ret at 1. unfold bind at 1.
    match goal with |- context [process_tracks _ _ ?d ?i ?a ?m ?t] =>
      step (steady_process_tracks d i a m t) s4 E4 Q4 end.
    exists s4. split; [done|chain].
  - unfold logger, emit, ret, bind at 1. unfold bind at 1.
    match goal with |- context [bind _ _ ?st] =>
      assert (Hs4 : ready st) by (eapply ready_quiet; [exact Hs0|chain]);
      assert (Q4 : quiet s3 st) by chain
    end.
    clear Hs0.
    match goal with |- context [process_tracks _ _ ?d ?i ?a ?m ?t] =>
      step (steady_process_tracks d i a m t) s5 E5 Q5 end.
    exists s5. split; [done|chain].
Qed.

Lemma steady_process_subdirs dir_name subdirs albums_found db :
  steady (process_subdirs cfg env dir_name subdirs albums_found db)
    (λ c, foldl (visit cfg env c) (albums_found, db)
            (map (Py.join dir_name) subdirs)).
Proof.
  revert albums_found db.
  induction subdirs as [|sub rest IH]; intros n db s Hs; simpl.
  - exists s. split; [done|apply quiet_refl].
  - step (steady_process (Py.join dir_name sub) db) s1 E1 Q1.
    destruct (IH (n + (process_pure cfg env (copied s) db (Py.join dir_name sub)).1)
                (process_pure cfg env (copied s) db (Py.join dir_name sub)).2
                s1 Hs0) as (s2 & E2 & Q2).
    exists s2. rewrite E2, (quiet_copied _ _ Q1). split; [done|chain].
Qed.

Lemma steady_scan_dirs music_dirs albums_found db :
  steady (scan_dirs cfg env music_dirs albums_found db)
    (λ c, scan_pure cfg env c music_dirs albums_found db).
Proof.
  unfold scan_pure. revert albums_found db.
  induction music_dirs as [|d rest IH]; intros n db s Hs; simpl.
  - exists s. split; [done|apply quiet_refl].
  - unfold candidates at 1. destruct (Py.startswith d ".").
    { simpl. by apply IH. }
    step (steady_music_files d) s1 E1 Q1.
    rewrite foldl_app.
    destruct (music_files_of cfg env d) as [|f more] eqn:Emf.
    + step (steady_list_directories cfg env d) s2 E2 Q2.
      step (steady_process_subdirs d (dirs_of cfg env d) n db) s3 E3 Q3.
      match goal with H : ready s3 |- context [scan_dirs _ _ _ ?n' ?db' s3] =>
        destruct (IH n' db' s3 H) as (s4 & E4 & Q4) end.
      exists s4. rewrite E4.
      rewrite (quiet_copied _ _ Q3), (quiet_copied _ _ Q2),
        (quiet_copied _ _ Q1).
      split; [|chain]. f_equal. f_equal.
      symmetry. apply surjective_pairing.
    + step (steady_process d db) s2 E2 Q2.
      match goal with H : ready s2 |- context [scan_dirs _ _ _ ?n' ?db' s2] =>
        destruct (IH n' db' s2 H) as (s3 & E3 & Q3) end.
      exists s3. rewrite E3.
      rewrite (quiet_copied _ _ Q2), (quiet_copied _ _ Q1).
      split; [done|chain].
Qed.

(** What [scan_library] does once [ensure_mounted] has answered [True]. *)
Lemma scan_library_tail db s :
  ready s →
  ∃ s',
    (let* music_dirs := list_directories cfg env "" in
     let* r := scan_dirs cfg env music_dirs 0 db in
     logger INFO "Library scan complete" >> ret (true, snd r)) s
    = ((true, snd (scan_pure cfg env (copied s) (dirs_of cfg env "") 0 db)), s')
    ∧ quiet s s'.
Proof.
  intros Hs.
  step (steady_list_directories cfg env "") s3 E3 Q3.
  step (steady_scan_dirs (dirs_of cfg env "") 0 db) s4 E4 Q4.
  unfold logger, emit, bind, ret. rewrite (quiet_copied _ _ Q3).
  eexists. split; [reflexivity|]. chain.
Qed.

(** On a share that stays mounted the scan succeeds and leaves the
    store the pure scan computes. *)
Lemma scan_library_ready db s :
  ready s →
  ∃ s', scan_library cfg env db s =
          ((true, snd (scan_pure cfg env (copied s) (dirs_of cfg env "") 0 db)), s')
        ∧ quiet s s'.
Proof.
  intros Hs. unfold scan_library. unfold logger at 1, emit, bind at 1.
  match goal with |- context [bind _ _ ?st] =>
    assert (Hs1 : ready st) by (eapply ready_quiet; [exact Hs|chain]);
    assert (Q1 : quiet s st) by chain
  end.
  clear Hs.
  step (steady_ensure_mounted cfg env) s2 E2 Q2.
  change (negb true) with false. cbv iota.
  destruct (scan_library_tail db s2 Hs) as (s' & E & Q).
  exists s'. rewrite E, (quiet_copied _ _ Q2). split; [done|chain].
Qed.

(** [scan_library] after its first log line and [ensure_mounted]. *)
Lemma scan_library_run db s ok s1 :
  ensure_mounted cfg env
    {| mounted := mounted s; copied := copied s;
       events := Log INFO "Starting music library scan..." :: events s |}
  = (ok, s1) →
  scan_library cfg env db s
  = (if negb ok then
       logger ERROR "Cannot scan library: network share not mounted" >>
       ret (false, db)
     else
       let* music_dirs := list_directories cfg env "" in
       let* r := scan_dirs cfg env music_dirs 0 db in
       logger INFO "Library scan complete" >> ret (true, snd r)) s1.
Proof.
  intros E. unfold scan_library. unfold logger at 1, emit, bind at 1.
  by rewrite (bind_run _ _ _ _ _ E).
Qed.

(** From any start the scan either finds the share beyond reach and
    leaves the store alone, or runs on a mounted share. *)
Lemma scan_library_hopeless db s :
  hopeless env s →
  ∃ s', scan_library cfg env db s = ((false, db), s') ∧ hopeless env s'.
Proof.
  intros Hs.
  destruct (ensure_mounted_hopeless cfg env
              {| mounted := mounted s; copied := copied s;
                 events := Log INFO "Starting music library scan..." :: events s |})
    as (s1 & E & H1); [exact Hs|].
  rewrite (scan_library_run db s _ _ E). simpl.
  unfold logger, emit, bind, ret. eexists. split; [reflexivity|exact H1].
Qed.

Lemma scan_library_cases db s :
  (∃ s', scan_library cfg env db s = ((false, db), s') ∧ hopeless env s')
  ∨ (∃ c s', scan_library cfg env db s
             = ((true, snd (scan_pure cfg env c (dirs_of cfg env "") 0 db)), s')
           ∧ ready s').
Proof.
  destruct (ensure_mounted cfg env
              {| mounted := mounted s; copied := copied s;
                 events := Log INFO "Starting music library scan..." :: events s |})
    as [[|] s1] eqn:E; rewrite (scan_library_run db s _ _ E); simpl.
  - right. apply ensure_mounted_true in E as (Hs1 & _ & _).
    destruct (scan_library_tail db s1 Hs1) as (s' & E' & Q).
    exists (copied s1), s'. split; [exact E'|]. by eapply ready_quiet.
  - left. apply ensure_mounted_false in E as (H1 & _ & _).
    unfold logger, emit, bind, ret. eexists. split; [reflexivity|exact H1].
Qed.

(** A second pass over the same candidates writes only keys the first
    pass wrote. *)
Lemma scan_pure_again c1 c2 dirs n1 n2 db :
  wf_db db →
  let db1 := snd (scan_pure cfg env c1 dirs n1 db) in
  let db2 := snd (scan_pure cfg env c2 dirs n2 db1) in
  wf_db db1
  ∧ length (albums db2) = length (albums db1)
  ∧ length (tracks db2) = length (tracks db1).
Proof.
  intros [Ha Ht]. unfold scan_pure. cbv zeta.
  destruct (visits_store cfg env c1 (flat_map (candidates cfg env) dirs) n1 db)
    as (items1 & E1 & P1).
  rewrite E1. cbn [snd].
  match goal with |- context [foldl _ (n2, ?d) _] =>
    destruct (visits_store cfg env c2 (flat_map (candidates cfg env) dirs) n2 d)
      as (items2 & E2 & P2) end.
  rewrite E2. cbn [snd albums tracks]. split; [split|split].
  - apply upserts_NoDup_keys; [apply mk_album_directory|done].
  - apply upserts_NoDup_keys; [apply mk_track_path|done].
  - apply (upserts_again_length a_directory a_id id);
      [apply mk_album_directory..|done|done].
  - apply (upserts_again_length t_file_path t_id (item_path));
      [apply mk_track_path..|done|congruence].
Qed.

(** C3.  Scanning twice in a row leaves as many album rows and as many
    track rows as scanning once, from any store that respects the two
    unique constraints and from any state of the mount; no key is held by
    two rows after either scan. *)
Theorem scan_library_twice_same_counts db s :
  wf_db db →
  let r1 := scan_library cfg env db s in
  let r2 := scan_library cfg env (snd (fst r1)) (snd r1) in
  length (albums (snd (fst r2))) = length (albums (snd (fst r1)))
  ∧ length (tracks (snd (fst r2))) = length (tracks (snd (fst r1)))
  ∧ wf_db (snd (fst r1)) ∧ wf_db (snd (fst r2)).
Proof.
  intros Hwf. cbv zeta.
  destruct (scan_library_cases db s) as [(s1 & E1 & H1)|(c1 & s1 & E1 & H1)];
    rewrite E1; cbn [fst snd].
  - destruct (scan_library_hopeless db s1 H1) as (s2 & E2 & _).
    rewrite E2. by cbn [fst snd].
  - pose proof (scan_pure_again c1 (copied s1) (dirs_of cfg env "") 0 0 db Hwf)
      as (W1 & La & Lt).
    set (db1 := snd (scan_pure cfg env c1 (dirs_of cfg env "") 0 db)) in *.
    destruct (scan_library_ready db1 s1 H1) as (s2 & E2 & _).
    rewrite E2. cbn [fst snd].
    pose proof (scan_pure_again (copied s1) (copied s1) (dirs_of cfg env "")
                  0 0 db1 W1) as (W2 & _ & _).
    done.
Qed.

(** ** Which directories become albums *)

Lemma candidates_container d :
  Py.startswith d "." = false → music_files_of cfg env d = [] →
  candidates cfg env d = map (Py.join d) (dirs_of cfg env d).
Proof. unfold candidates. by intros -> ->. Qed.

Lemma candidates_hidden d :
  Py.startswith d "." = true → candidates cfg env d = [].
Proof. unfold candidates. by intros ->. Qed.

(** The album directories in the store after a scan: those already
    there, and the visited candidates that hold music. *)
Lemma scan_pure_album_keys c dirs n db k :
  k ∈ map a_directory (albums (snd (scan_pure cfg env c dirs n db))) ↔
  k ∈ map a_directory (albums db)
  ∨ (k ∈ flat_map (candidates cfg env) dirs ∧ has_music cfg env k = true).
Proof.
  unfold scan_pure.
  destruct (visits_store cfg env c (flat_map (candidates cfg env) dirs) n db)
    as (items & E & _).
  rewrite E. cbn [snd albums].
  rewrite (upserts_keys a_directory a_id id (mk_album cfg env c))
    by apply mk_album_directory.
  rewrite map_id, (list_elem_of_In (List.filter _ _) k), filter_In.
  by rewrite <- list_elem_of_In.
Qed.

(** C10.  The dot-prefix test is made on the names listed at the root of
    the share only: a hidden directory there contributes nothing, while a
    dot-prefixed subdirectory of a container directory is handed to album
    processing like any other and, holding music, is in the index after
    the scan. *)
Theorem hidden_subdirectory_is_indexed db s d sub :
  ready s →
  d ∈ dirs_of cfg env "" → Py.startswith d "." = false →
  music_files_of cfg env d = [] →
  sub ∈ dirs_of cfg env d → Py.startswith sub "." = true →
  has_music cfg env (Py.join d sub) = true →
  (∃ db' s' a, scan_library cfg env db s = ((true, db'), s')
     ∧ a ∈ albums db' ∧ a_directory a = Py.join d sub)
  ∧ (∀ h rest n db0 s0, Py.startswith h "." = true →
       scan_dirs cfg env (h :: rest) n db0 s0 = scan_dirs cfg env rest n db0 s0).
Proof.
  intros Hs Hd Hvis Hmf Hsub _ Hmusic. split.
  - destruct (scan_library_ready db s Hs) as (s' & E & _).
    assert (Py.join d sub
            ∈ map a_directory
                (albums (snd (scan_pure cfg env (copied s) (dirs_of cfg env "") 0 db))))
      as Hk.
    { apply scan_pure_album_keys. right. split; [|done].
      apply list_elem_of_In, in_flat_map. exists d.
      split; [by apply list_elem_of_In|].
      rewrite (candidates_container d Hvis Hmf).
      apply in_map. by apply list_elem_of_In. }
    apply list_elem_of_In, in_map_iff in Hk as (a & Ea & Ha).
    eexists _, s', a. split; [exact E|]. split; [by apply list_elem_of_In|done].
  - intros h rest n db0 s0 Hh. simpl. by rewrite Hh.
Qed.


(** ** Rowids across a scan *)

(** C4.  An album that [search_albums] returns and whose directory the
    next scan processes again has lost its id after that scan:
    [get_album_by_id] of the old id finds nothing; the directory is still
    in the index, under an id no album row had before; and every track row
    of a file of that directory has an id no track row had before. *)
Theorem rescan_replaces_album_id db s query ai :
  ready s →
  NoDup (map a_id (albums db)) →
  ai ∈ search_albums query db →
  ai_directory ai ∈ flat_map (candidates cfg env) (dirs_of cfg env "") →
  has_music cfg env (ai_directory ai) = true →
  ∃ db' s',
    scan_library cfg env db s = ((true, db'), s')
    ∧ get_album_by_id (ai_id ai) db' = None
    ∧ (∃ a', a' ∈ albums db' ∧ a_directory a' = ai_directory ai)
    ∧ (∀ a', a' ∈ albums db' → a_directory a' = ai_directory ai →
         a_id a' ∉ map a_id (albums db))
    ∧ (∀ t, t ∈ tracks db' →
         t_file_path t ∈ paths_in cfg env (ai_directory ai) →
         t_id t ∉ map t_id (tracks db)).
Proof.
  intros Hs Hnd Hai Hcand Hmusic.
  apply search_albums_rows in Hai as (a & Ha & ->). cbn [ai_id ai_directory] in *.
  destruct (scan_library_ready db s Hs) as (s' & E & _).
  eexists _, s'. split; [exact E|].
  unfold scan_pure.
  destruct (visits_store cfg env (copied s)
              (flat_map (candidates cfg env) (dirs_of cfg env "")) 0 db)
    as (items & Ev & Hp).
  rewrite Ev. cbn [snd albums tracks].
  assert (a_directory a
          ∈ map id (List.filter (has_music cfg env)
                      (flat_map (candidates cfg env) (dirs_of cfg env ""))))
    as Hkey.
  { rewrite map_id. apply list_elem_of_In, filter_In. split; [|done].
    by apply list_elem_of_In. }
  split; [|split; [|split]].
  - apply get_album_by_id_absent. cbn [albums].
    apply (upserts_gone a_directory a_id id (mk_album cfg env (copied s)));
      [apply mk_album_id|done..].
  - assert (a_directory a
            ∈ map a_directory
                (upserts a_directory a_id id (mk_album cfg env (copied s))
                   (albums db)
                   (List.filter (has_music cfg env)
                      (flat_map (candidates cfg env) (dirs_of cfg env "")))))
      as Hk.
    { apply upserts_keys; [apply mk_album_directory|]. by right. }
    apply list_elem_of_In, in_map_iff in Hk as (a' & Ea & Ha').
    exists a'. split; [by apply list_elem_of_In|done].
  - intros a' Ha' Edir.
    eapply (upserts_fresh a_directory a_id id (mk_album cfg env (copied s)));
      [apply mk_album_id|exact Ha'|]. by rewrite Edir.
  - intros t Ht Hpath.
    eapply (upserts_fresh t_file_path t_id item_path (mk_track cfg env));
      [apply mk_track_id|exact Ht|].
    rewrite Hp. apply list_elem_of_In, in_flat_map.
    exists (a_directory a). split; by apply list_elem_of_In.
Qed.

(** ** Files whose tags cannot be read *)




End ScanFacts.


(* ===================================================================== *)
(** * Theorems: the scanner on concrete shares *)
(* ===================================================================== *)

Section Instances.

Import Net Library.

(** Decide a closed proposition by evaluation. *)
Local Ltac evaluate :=
  match goal with
  | |- ?P => apply (bool_decide_unpack P); vm_compute; exact I
  end.

Local Abbreviation cfg := Config.shipped.

Lemma share_ready : ready Fixture.share (Fixture.start true).
Proof. split; reflexivity. Defined.


Lemma scan_library_twice_same_counts_witness :
  wf_db empty_db
  ∧ let r1 := scan_library cfg Fixture.share empty_db (Fixture.start false) in
    let r2 := scan_library cfg Fixture.share (snd (fst r1)) (snd r1) in
    length (albums (snd (fst r2))) = length (albums (snd (fst r1)))
    ∧ length (tracks (snd (fst r2))) = length (tracks (snd (fst r1)))
    ∧ wf_db (snd (fst r1)) ∧ wf_db (snd (fst r2)).
Proof.
  assert (H : wf_db empty_db) by (split; constructor).
  split; [exact H|].
  exact (scan_library_twice_same_counts cfg Fixture.share empty_db
           (Fixture.start false) H).
Defined.

(** The second scan of [Fixture.share] in numbers: three albums and four
    tracks both times, under ids 1-3 the first time and 4-6 the second. *)
Example rescan_of_share :
  let r2 := scan_library cfg Fixture.share Fixture.scanned (Fixture.start true) in
  map a_id (albums Fixture.scanned) = [1; 2; 3]
  ∧ map a_id (albums (snd (fst r2))) = [4; 5; 6]
  ∧ length (tracks Fixture.scanned) = 4%nat
  ∧ length (tracks (snd (fst r2))) = 4%nat.
Proof. repeat split; vm_compute; reflexivity. Qed.

Lemma rescan_replaces_album_id_witness :
  let ai := album_info Fixture.scanned
              {| a_id := 1; a_title := "AlbumA"; a_artist := "Artist";
                 a_year := "Unknown Year"; a_directory := "Artist/AlbumA";
                 a_cover_art := Some "Artist/AlbumA/cover.jpg";
                 a_last_updated := 1700000000 |} in
  let db := Fixture.scanned in
  let s := Fixture.start true in
  ready Fixture.share s
  ∧ NoDup (map a_id (albums db))
  ∧ ai ∈ search_albums "albuma" db
  ∧ ai_directory ai
    ∈ flat_map (candidates cfg Fixture.share) (dirs_of cfg Fixture.share "")
  ∧ has_music cfg Fixture.share (ai_directory ai) = true
  ∧ ∃ db' s',
      scan_library cfg Fixture.share db s = ((true, db'), s')
      ∧ get_album_by_id (ai_id ai) db' = None
      ∧ (∃ a', a' ∈ albums db' ∧ a_directory a' = ai_directory ai)
      ∧ (∀ a', a' ∈ albums db' → a_directory a' = ai_directory ai →
           a_id a' ∉ map a_id (albums db))
      ∧ (∀ t, t ∈ tracks db' →
           t_file_path t ∈ paths_in cfg Fixture.share (ai_directory ai) →
           t_id t ∉ map t_id (tracks db)).
Proof.
  intros ai db s.
  assert (H2 : NoDup (map a_id (albums db))) by evaluate.
  assert (H3 : ai ∈ search_albums "albuma" db).
  { unfold search_albums.
    assert (select_albums "albuma" db
            = [{| a_id := 1; a_title := "AlbumA"; a_artist := "Artist";
                  a_year := "Unknown Year"; a_directory := "Artist/AlbumA";
                  a_cover_art := Some "Artist/AlbumA/cover.jpg";
                  a_last_updated := 1700000000 |}]) as ->
      by (vm_compute; reflexivity).
    left. }
  assert (H4 : ai_directory ai
               ∈ flat_map (candidates cfg Fixture.share)
                   (dirs_of cfg Fixture.share "")) by evaluate.
  assert (H5 : has_music cfg Fixture.share (ai_directory ai) = true)
    by (vm_compute; reflexivity).
  split; [exact share_ready|]. split; [exact H2|]. split; [exact H3|].
  split; [exact H4|]. split; [exact H5|].
  exact (rescan_replaces_album_id cfg Fixture.share db s "albuma" ai
           share_ready H2 H3 H4 H5).
Defined.


(** The scenario of the specification: a directory without music of its
    own and with two subdirectories that hold music yields two albums, one
    per subdirectory; the music one level further down is not indexed. *)
Example box_set_yields_two_albums :
  let r := scan_library cfg Fixture.box_set empty_db (Fixture.start true) in
  fst (fst r) = true
  ∧ map a_directory (albums (snd (fst r))) = ["Box/CD1"; "Box/CD2"]
  ∧ map t_file_path (tracks (snd (fst r))) = ["Box/CD1/a.flac"; "Box/CD2/b.flac"]
  ∧ fst (fst (scan_dirs cfg Fixture.box_set ["Box"] 0 empty_db (Fixture.start true)))
    = 2.
Proof. repeat split; vm_compute; reflexivity. Qed.


Lemma hidden_subdirectory_is_indexed_witness :
  let env := Fixture.share in
  let s := Fixture.start true in
  ready env s
  ∧ "Artist" ∈ dirs_of cfg env ""
  ∧ Py.startswith "Artist" "." = false
  ∧ music_files_of cfg env "Artist" = []
  ∧ ".secret" ∈ dirs_of cfg env "Artist"
  ∧ Py.startswith ".secret" "." = true
  ∧ has_music cfg env (Py.join "Artist" ".secret") = true
  ∧ (∃ db' s' a, scan_library cfg env empty_db s = ((true, db'), s')
       ∧ a ∈ albums db' ∧ a_directory a = Py.join "Artist" ".secret")
  ∧ (∀ h rest n db0 s0, Py.startswith h "." = true →
       scan_dirs cfg env (h :: rest) n db0 s0 = scan_dirs cfg env rest n db0 s0).
Proof.
  intros env s.
  assert (H2 : "Artist" ∈ dirs_of cfg env "") by evaluate.
  assert (H3 : Py.startswith "Artist" "." = false) by reflexivity.
  assert (H4 : music_files_of cfg env "Artist" = []) by (vm_compute; reflexivity).
  assert (H5 : ".secret" ∈ dirs_of cfg env "Artist") by evaluate.
  assert (H6 : Py.startswith ".secret" "." = true) by reflexivity.
  assert (H7 : has_music cfg env (Py.join "Artist" ".secret") = true)
    by (vm_compute; reflexivity).
  split; [exact share_ready|]. split; [exact H2|]. split; [exact H3|].
  split; [exact H4|]. split; [exact H5|]. split; [exact H6|].
  split; [exact H7|].
  exact (hidden_subdirectory_is_indexed cfg env empty_db s "Artist" ".secret"
           share_ready H2 H3 H4 H5 H6 H7).
Defined.


(** The row and the log line for that file, evaluated. *)
Example unreadable_track_row :
  let r := _process_album_directory cfg Fixture.share "Artist/.secret" empty_db
             (Fixture.start true) in
  map (λ t, (t_title t, t_artist t, t_track_number t, t_disc_number t,
             t_duration t, t_file_path t)) (tracks (snd (fst r)))
  = [("s1", "Unknown Artist", 0, 1, 0%Q, "Artist/.secret/s1.wav")]
  ∧ Log WARNING "Error reading tags from /mnt/music/Artist/.secret/s1.wav"
    ∈ events (snd r).
Proof. split; [vm_compute; reflexivity|evaluate]. Qed.

End Instances.

(* ===================================================================== *)
(** * Theorems: network_handler.py, the mount machinery *)
(* ===================================================================== *)

Section MountFacts.

Import Net NetTrace.
Local Open Scope net_scope.
Variable cfg : Config.t.
Variable env : Env.

(** Runs the mount machinery on every combination of a raising or
    working probe, a mounted or unmounted share, and the three outcomes of
    [umount] and of [mount]. *)
Local Ltac mount_run s :=
  destruct s as [m c ev];
  destruct (probe_raises env) eqn:Hprobe, m,
    (umount_outcome env) eqn:Humount, (mount_outcome env) eqn:Hmount;
  cbv [ensure_mounted mount_share unmount_share is_mounted execute_command
       shell bind ret emit logger get_mounted get_copied set_mounted
       add_copied fst snd mounted copied events negb andb orb] in *;
  rewrite ?Hprobe, ?Humount, ?Hmount; simpl.

(** Reads the events a run has put on top of the record off the goal. *)
Local Ltac fresh_events :=
  lazymatch goal with
  | |- ∃ d, ?l = d ++ ?t ∧ _ =>
      let rec pre l :=
        lazymatch l with
        | t => constr:(@nil Event)
        | ?e :: ?r => let p := pre r in constr:(e :: p)
        end in
      let d := pre l in
      exists d; split; [reflexivity|]
  end.

Local Ltac member := rewrite ?elem_of_cons, ?elem_of_nil; naive_solver.

(** X1.  [ensure_mounted] answers [True] exactly when, at its return, the
    mount table can be read and shows the share.  It leaves the cache
    alone, and all it does to the outside world is to run shell commands
    and to write log lines. *)
Theorem ensure_mounted_answer s :
  let r := ensure_mounted cfg env s in
  fst r = negb (probe_raises env) && mounted (snd r)
  ∧ copied (snd r) = copied s
  ∧ ∃ d, events (snd r) = d ++ events s ∧ forallb shell_or_log d = true.
Proof.
  mount_run s.
  all: split; [reflexivity|]; split; [reflexivity|].
  all: fresh_events; reflexivity.
Qed.

(** X2.  On a share that is mounted, with a mount table that can be read,
    [ensure_mounted] answers [True] after a single query of the mount
    table: it runs neither [umount] nor [mount]. *)
Theorem ensure_mounted_only_probes s :
  ready env s →
  ensure_mounted cfg env s
  = (true, {| mounted := true; copied := copied s;
              events := Exec CmdMountTable
                        :: Log DEBUG "Executing command" :: events s |}).
Proof.
  intros [Hp Hm]. destruct s as [m c ev]. simpl in Hm. subst m.
  cbv [ensure_mounted is_mounted execute_command shell bind ret emit logger
       get_mounted mounted copied events].
  rewrite Hp. reflexivity.
Qed.

(** X3.  [mount_share] issues the mount command whatever the state, after
    trying to unmount.  It answers [True] exactly when the mount command
    did not raise and, at the return, the mount table can be read and
    shows the share; the share is then mounted when the mount command
    succeeded, or when it was mounted before and no [umount] took it
    down. *)
Theorem mount_share_answer s :
  let r := mount_share cfg env s in
  fst r = negb (probe_raises env)
          && bool_decide (mount_outcome env ≠ Raises) && mounted (snd r)
  ∧ mounted (snd r)
    = bool_decide (mount_outcome env = Succeeds)
      || (mounted s
          && negb (negb (probe_raises env)
                   && bool_decide (umount_outcome env = Succeeds)))
  ∧ copied (snd r) = copied s
  ∧ ∃ d, events (snd r) = d ++ events s
         ∧ forallb shell_or_log d = true
         ∧ Exec (CmdMountCifs (creds cfg)) ∈ d.
Proof.
  mount_run s.
  all: split; [reflexivity|]; split; [reflexivity|]; split; [reflexivity|].
  all: fresh_events; split; [reflexivity|].
  all: repeat first [apply list_elem_of_here | apply list_elem_of_further].
Qed.

(** X4.  Called on a healthy mount, [mount_share] gives it up: when the
    [umount] succeeds and the mount command does not, the answer is
    [False] and the share is no longer mounted. *)
Theorem mount_share_drops_the_mount s :
  ready env s →
  umount_outcome env = Succeeds → mount_outcome env ≠ Succeeds →
  ∃ s', mount_share cfg env s = (false, s') ∧ mounted s' = false.
Proof.
  intros [Hp Hm] Hu Hne. mount_run s; try discriminate; try done;
    (eexists; split; [reflexivity|done]).
Qed.

(** X5.  [unmount_share] answers [False] only when [umount] raises something
    other than a non-zero exit status.  The share is unmounted at the
    return exactly when it was not mounted before, or the mount table
    could be read and [umount] succeeded; [umount] is run exactly when the
    mount table shows the share. *)
Theorem unmount_share_outcomes s :
  let r := unmount_share env s in
  (fst r = false ↔
     probe_raises env = false ∧ mounted s = true ∧ umount_outcome env = Raises)
  ∧ (mounted (snd r) = false ↔
     mounted s = false
     ∨ (probe_raises env = false ∧ umount_outcome env = Succeeds))
  ∧ copied (snd r) = copied s
  ∧ ∃ d, events (snd r) = d ++ events s
         ∧ forallb shell_or_log d = true
         ∧ (Exec CmdUmount ∈ d ↔ probe_raises env = false ∧ mounted s = true).
Proof.
  destruct s as [m c ev];
  destruct (probe_raises env) eqn:Hprobe, m, (umount_outcome env) eqn:Humount;
  cbv [unmount_share is_mounted execute_command
       shell bind ret emit logger get_mounted get_copied set_mounted
       add_copied fst snd mounted copied events negb andb orb];
  rewrite ?Hprobe, ?Humount; simpl.
  all: split; [intuition (try discriminate; try congruence)|].
  all: split; [intuition (try discriminate; try congruence)|].
  all: split; [reflexivity|].
  all: fresh_events; split; [reflexivity|].
  all: split; [|intros [? ?]; try discriminate;
                repeat first [apply list_elem_of_here | apply list_elem_of_further]].
  all: first
         [ by intros _; split
         | rewrite ?elem_of_cons, ?elem_of_nil; intros H; exfalso;
           repeat (destruct H as [H|H]; try discriminate); done ].
Qed.

End MountFacts.

Lemma ensure_mounted_only_probes_witness :
  Net.ready Fixture.share (Fixture.start true)
  ∧ Net.ensure_mounted Config.shipped Fixture.share (Fixture.start true)
    = (true, {| Net.mounted := true;
                Net.copied := Net.copied (Fixture.start true);
                Net.events :=
                  Net.Exec Net.CmdMountTable
                  :: Net.Log Net.DEBUG "Executing command"
                  :: Net.events (Fixture.start true) |}).
Proof.
  assert (Net.ready Fixture.share (Fixture.start true)) as H by (by split).
  split; [exact H|].
  exact (ensure_mounted_only_probes Config.shipped Fixture.share _ H).
Defined.

Lemma mount_share_drops_the_mount_witness :
  Net.ready Fixture.refusing_share (Fixture.start true)
  ∧ Net.umount_outcome Fixture.refusing_share = Net.Succeeds
  ∧ Net.mount_outcome Fixture.refusing_share ≠ Net.Succeeds
  ∧ ∃ s', Net.mount_share Config.shipped Fixture.refusing_share
            (Fixture.start true) = (false, s')
          ∧ Net.mounted s' = false.
Proof.
  assert (Net.ready Fixture.refusing_share (Fixture.start true)) as H
    by (by split).
  assert (Net.mount_outcome Fixture.refusing_share ≠ Net.Succeeds) as Hne
    by discriminate.
  split; [exact H|]. split; [reflexivity|]. split; [exact Hne|].
  exact (mount_share_drops_the_mount Config.shipped Fixture.refusing_share _
           H eq_refl Hne).
Defined.

(* ===================================================================== *)
(** * Theorems: network_handler.py, files and listings *)
(* ===================================================================== *)

Section FileFacts.

Import Net NetTrace.
Local Open Scope net_scope.
Variable cfg : Config.t.
Variable env : Env.

Local Abbreviation cache_file := (cache_file cfg).
Local Abbreviation network_file := (network_file cfg).
Local Abbreviation hopeless := (hopeless env).
Local Abbreviation seen path s := (fst (os_path_exists cfg env path s)).
Local Abbreviation stat path s :=
  {| mounted := mounted s; copied := copied s;
     events := Stat path :: events s |}.

(** [os.path.exists] in one step: it only adds its own event. *)
Lemma os_path_exists_run path s :
  os_path_exists cfg env path s = (seen path s, stat path s).
Proof. reflexivity. Qed.

(** What [os.path.exists] answers depends on the mount table and on the
    cache only. *)
Lemma seen_same path s s' :
  mounted s' = mounted s → copied s' = copied s → seen path s' = seen path s.
Proof.
  intros Hm Hc. unfold os_path_exists, visible.
  cbv [bind ret emit get_copied get_mounted fst mounted copied].
  destruct s, s'; simpl in *. by subst.
Qed.

Lemma seen_copied path s s' :
  mounted s' = mounted s → copied s' = path :: copied s → seen path s' = true.
Proof.
  intros Hm Hc. unfold os_path_exists, visible.
  cbv [bind ret emit get_copied get_mounted fst mounted copied].
  destruct s, s'; simpl in *. subst. rewrite bool_decide_eq_true_2; [done|].
  apply list_elem_of_here.
Qed.

(** The mount machinery leaves the cache alone and adds only shell
    commands and log lines. *)
Lemma ensure_mounted_trace s :
  copied (snd (ensure_mounted cfg env s)) = copied s
  ∧ ∃ d, events (snd (ensure_mounted cfg env s)) = d ++ events s
         ∧ forallb shell_or_log d = true.
Proof.
  destruct s as [m c ev];
  destruct (probe_raises env) eqn:Hprobe, m,
    (umount_outcome env) eqn:Humount, (mount_outcome env) eqn:Hmount;
  cbv [ensure_mounted mount_share unmount_share is_mounted execute_command
       shell bind ret emit logger get_mounted get_copied set_mounted
       add_copied fst snd mounted copied events negb andb orb] in *;
  rewrite ?Hprobe, ?Humount, ?Hmount; simpl.
  all: split; [reflexivity|].
  all: lazymatch goal with
       | |- ∃ d, ?l = d ++ ?t ∧ _ =>
           let rec pre l :=
             lazymatch l with
             | t => constr:(@nil Event)
             | ?e :: ?r => let p := pre r in constr:(e :: p)
             end in
           let d := pre l in
           exists d; split; reflexivity
       end.
Qed.

(** [get_file_path] step by step. *)
Lemma get_file_path_run p s :
  get_file_path cfg env p s
  = if Config.CACHE_ENABLED cfg then
      if seen (cache_file p) s then
        (Some (cache_file p), stat (cache_file p) s)
      else
        let '(ok, s2) := ensure_mounted cfg env (stat (cache_file p) s) in
        if negb ok then (None, s2)
        else if negb (seen (network_file p) s2) then
          (None, stat (network_file p) s2)
        else
          let s3 := stat (network_file p) s2 in
          if copy_ok env (network_file p) (cache_file p) then
            (Some (cache_file p),
             {| mounted := mounted s3; copied := cache_file p :: copied s3;
                events := Copy (network_file p) (cache_file p) :: events s3 |})
          else
            (Some (network_file p),
             {| mounted := mounted s3; copied := copied s3;
                events := Log ERROR "Error caching file"
                          :: Copy (network_file p) (cache_file p)
                          :: events s3 |})
    else
      let '(ok, s2) := ensure_mounted cfg env s in
      if negb ok then (None, s2)
      else
        (if seen (network_file p) s2 then Some (network_file p) else None,
         stat (network_file p) s2).
Proof.
  unfold get_file_path.
  fold (cache_file p) (network_file p).
  destruct (Config.CACHE_ENABLED cfg).
  - unfold bind at 1. rewrite os_path_exists_run.
    destruct (seen (cache_file p) s); [reflexivity|].
    unfold bind at 1.
    destruct (ensure_mounted cfg env _) as [ok s2]. destruct ok; [|reflexivity].
    change (negb true) with false; cbv iota. unfold bind at 1. rewrite os_path_exists_run.
    destruct (seen (network_file p) s2); [|reflexivity].
    change (negb true) with false; cbv iota. unfold copy_into.
    cbv [bind ret emit add_copied logger].
    destruct (copy_ok env _ _); reflexivity.
  - unfold bind at 1.
    destruct (ensure_mounted cfg env s) as [ok s2]. destruct ok; [|reflexivity].
    change (negb true) with false; cbv iota. unfold bind at 1.
    by rewrite os_path_exists_run.
Qed.


Lemma hopeless_stat path s : hopeless s → hopeless (stat path s).
Proof. done. Qed.


(** X6.  Whatever [get_file_path] returns is the cache path or the path below
    the mount point of the file asked for, and exists when the call
    returns.  With caching enabled, once it has returned the cache path,
    asking again returns the cache path again after the existence test
    alone: no shell command, no copy. *)
Theorem get_file_path_result p s q s' :
  get_file_path cfg env p s = (Some q, s') →
  (q = cache_file p ∨ q = network_file p)
  ∧ seen q s' = true
  ∧ (Config.CACHE_ENABLED cfg = true → q = cache_file p →
     get_file_path cfg env p s' = (Some q, stat q s')).
Proof.
  intros E.
  assert ((q = cache_file p ∨ q = network_file p) ∧ seen q s' = true)
    as [Hq Hseen].
  { rewrite get_file_path_run in E.
    destruct (Config.CACHE_ENABLED cfg).
    - destruct (seen (cache_file p) s) eqn:Hhit.
      + injection E as <- <-. split; [by left|].
        by rewrite (seen_same _ s).
      + destruct (ensure_mounted cfg env _) as [[] s2]; [|done].
        change (negb true) with false in E; cbv iota in E.
        destruct (seen (network_file p) s2) eqn:Hthere; [|done].
        change (negb true) with false in E; cbv iota in E.
        destruct (copy_ok env _ _); injection E as <- <-.
        * split; [by left|]. by apply (seen_copied _ (stat (network_file p) s2)).
        * split; [by right|]. by rewrite (seen_same _ s2).
    - destruct (ensure_mounted cfg env s) as [[] s2]; [|done].
      change (negb true) with false in E; cbv iota in E.
      destruct (seen (network_file p) s2) eqn:Hthere; [|done].
      injection E as <- <-. split; [by right|]. by rewrite (seen_same _ s2). }
  split; [done|]. split; [done|].
  intros Hen ->. rewrite get_file_path_run, Hen. by rewrite Hseen.
Qed.

(** X7.  While the share cannot be brought up, [get_file_path] serves what is
    in the cache and nothing else. *)
Theorem get_file_path_offline p s :
  hopeless s →
  fst (get_file_path cfg env p s)
  = if Config.CACHE_ENABLED cfg && seen (cache_file p) s
    then Some (cache_file p) else None.
Proof.
  intros Hs. rewrite get_file_path_run.
  destruct (Config.CACHE_ENABLED cfg); cbn [andb].
  - destruct (seen (cache_file p) s); [done|].
    destruct (ensure_mounted_hopeless cfg env _ (hopeless_stat (cache_file p) s Hs))
      as (s2 & -> & _). done.
  - destruct (ensure_mounted_hopeless cfg env _ Hs) as (s2 & -> & _). done.
Qed.


End FileFacts.

Section ListingFacts.

Import Net NetTrace.
Local Open Scope net_scope.
Variable cfg : Config.t.
Variable env : Env.

Local Abbreviation hopeless := (hopeless env).
Local Abbreviation full_path := (full_path cfg).

Lemma List_filter_sublist {A} (f : A → bool) l : List.filter f l `sublist_of` l.
Proof.
  induction l as [|x l IH]; simpl; [constructor|].
  destruct (f x); by constructor.
Qed.

Lemma List_filter_elem {A} (f : A → bool) l x :
  x ∈ List.filter f l ↔ x ∈ l ∧ f x = true.
Proof. by rewrite !list_elem_of_In, filter_In. Qed.

(** X9.  While the share cannot be brought up, both listings are empty, and
    all they do is the attempt to mount: shell commands and log lines,
    no directory is read and the cache is left alone. *)
Theorem listings_need_the_mount path pat s :
  hopeless s →
  ∃ s', list_directories cfg env path s = ([], s')
        ∧ list_files cfg env path pat s = ([], s')
        ∧ copied s' = copied s
        ∧ ∃ d, events s' = d ++ events s ∧ forallb shell_or_log d = true.
Proof.
  intros Hs. destruct (ensure_mounted_hopeless cfg env s Hs) as (s' & E & _).
  pose proof (ensure_mounted_trace cfg env s) as Ht. rewrite E in Ht.
  exists s'. unfold list_directories, list_files.
  rewrite !(bind_run _ _ _ _ _ E). done.
Qed.

(** X10.  On a mounted share, [list_files] returns the entries of the
    directory that are regular files and, when a pattern is given, match
    it: all of them and no others, in the order of the directory
    listing. *)
Theorem list_files_selects path pat names s :
  ready env s → listdir env (full_path path) = Some names →
  let found := fst (list_files cfg env path pat s) in
  found `sublist_of` names
  ∧ ∀ f, f ∈ found ↔
         f ∈ names ∧ isfile env (Py.join (full_path path) f) = true
         ∧ ∀ pattern, pat = Some pattern → Py.search pattern f = true.
Proof.
  intros Hs Hl found.
  destruct (steady_list_files cfg env path pat s Hs) as (s' & E & _).
  subst found. rewrite E. unfold files_of. rewrite Hl. simpl.
  destruct pat as [pattern|].
  - split.
    + etrans; apply List_filter_sublist.
    + intros f. rewrite !List_filter_elem. split.
      * intros [[? ?] ?]. repeat split; try done. by intros ? [= <-].
      * intros (? & ? & Hp). split; [done|]. by apply Hp.
  - split; [apply List_filter_sublist|].
    intros f. rewrite List_filter_elem. split.
    + intros [? ?]. by repeat split.
    + by intros (? & ? & _).
Qed.

(** X11.  On a mounted share, [list_directories] returns the entries of the
    directory that are directories themselves: all of them and no
    others, in the order of the directory listing, hidden ones
    included. *)
Theorem list_directories_selects path names s :
  ready env s → listdir env (full_path path) = Some names →
  let found := fst (list_directories cfg env path s) in
  found `sublist_of` names
  ∧ ∀ d, d ∈ found ↔ d ∈ names ∧ isdir env (Py.join (full_path path) d) = true.
Proof.
  intros Hs Hl found.
  destruct (steady_list_directories cfg env path s Hs) as (s' & E & _).
  subst found. rewrite E. unfold dirs_of. rewrite Hl. simpl.
  split; [apply List_filter_sublist|].
  intros d. by rewrite List_filter_elem.
Qed.

(** X12.  On a mounted share, a directory that cannot be read (one that does
    not exist, say) lists as empty: the listings log the error and return
    the empty list, and change neither the mount nor the cache. *)
Theorem listing_unreadable_directory path pat s :
  ready env s → listdir env (full_path path) = None →
  ∃ s1 s2,
    list_directories cfg env path s = ([], s1)
    ∧ list_files cfg env path pat s = ([], s2)
    ∧ Log ERROR "Error listing directories" ∈ events s1
    ∧ Log ERROR "Error listing files" ∈ events s2
    ∧ quiet s s1 ∧ quiet s s2.
Proof.
  intros Hs Hl.
  destruct (ensure_mounted_ready cfg env s Hs) as (s0 & E & Q).
  pose proof (ready_quiet env _ _ Hs Q) as [Hp Hm].
  unfold list_directories, list_files.
  rewrite !(bind_run _ _ _ _ _ E). change (negb true) with false; cbv iota.
  unfold os_listdir, visible.
  cbv [bind ret emit logger get_mounted]. simpl.
  rewrite Hm, orb_true_r, Hl.
  do 2 eexists. split; [reflexivity|]. split; [reflexivity|].
  split; [apply list_elem_of_here|]. split; [apply list_elem_of_here|].
  destruct Q as (Qm & Qc & Qe).
  split; (split; [simpl; congruence|]; split; [done|]; simpl;
          by do 2 apply suffix_cons_r).
Qed.

End ListingFacts.

Lemma get_file_path_result_witness :
  let cfg := Config.shipped in
  let env := Fixture.share in
  let p := Fixture.cached_track in
  let s := Fixture.start false in
  let q := Net.cache_file cfg p in
  let s' := snd (Net.get_file_path cfg env p s) in
  Net.get_file_path cfg env p s = (Some q, s')
  ∧ (q = Net.cache_file cfg p ∨ q = Net.network_file cfg p)
  ∧ fst (Net.os_path_exists cfg env q s') = true
  ∧ (Config.CACHE_ENABLED cfg = true → q = Net.cache_file cfg p →
     Net.get_file_path cfg env p s'
     = (Some q, {| Net.mounted := Net.mounted s'; Net.copied := Net.copied s';
                   Net.events := Net.Stat q :: Net.events s' |})).
Proof.
  intros cfg env p s q s'.
  assert (Net.get_file_path cfg env p s = (Some q, s')) as E
    by (vm_compute; reflexivity).
  split; [exact E|].
  exact (get_file_path_result cfg env p s q s' E).
Defined.

Lemma get_file_path_offline_witness :
  let cfg := Config.shipped in
  let env := Fixture.refusing_share in
  let p := Fixture.cached_track in
  Net.hopeless env Fixture.warm
  ∧ fst (Net.get_file_path cfg env p Fixture.warm)
    = if Config.CACHE_ENABLED cfg
         && fst (Net.os_path_exists cfg env (Net.cache_file cfg p) Fixture.warm)
      then Some (Net.cache_file cfg p) else None.
Proof.
  intros cfg env p.
  assert (Net.hopeless env Fixture.warm) as H by (right; by split).
  split; [exact H|].
  exact (get_file_path_offline cfg env p Fixture.warm H).
Defined.

Lemma listings_need_the_mount_witness :
  let cfg := Config.shipped in
  let env := Fixture.refusing_share in
  let s := Fixture.start false in
  let pat := Some (Py.ExtPattern ".flac") in
  Net.hopeless env s
  ∧ ∃ s', Net.list_directories cfg env "Artist" s = ([], s')
          ∧ Net.list_files cfg env "Artist" pat s = ([], s')
          ∧ Net.copied s' = Net.copied s
          ∧ ∃ d, Net.events s' = d ++ Net.events s
                 ∧ forallb NetTrace.shell_or_log d = true.
Proof.
  intros cfg env s pat.
  assert (Net.hopeless env s) as H by (right; by split).
  split; [exact H|].
  exact (listings_need_the_mount cfg env "Artist" pat s H).
Defined.

Lemma list_files_selects_witness :
  let cfg := Config.shipped in
  let env := Fixture.share in
  let s := Fixture.start true in
  let path := "Artist/AlbumA" in
  let pat := Some (Py.ExtPattern ".flac") in
  let names := ["01.flac"; "02.flac"; "cover.jpg"] in
  Net.ready env s
  ∧ Net.listdir env (Net.full_path cfg path) = Some names
  ∧ let found := fst (Net.list_files cfg env path pat s) in
    found `sublist_of` names
    ∧ ∀ f, f ∈ found ↔
           f ∈ names
           ∧ Net.isfile env (Py.join (Net.full_path cfg path) f) = true
           ∧ ∀ pattern, pat = Some pattern → Py.search pattern f = true.
Proof.
  intros cfg env s path pat names.
  assert (Net.ready env s) as H by (by split).
  assert (Net.listdir env (Net.full_path cfg path) = Some names) as Hl
    by (vm_compute; reflexivity).
  split; [exact H|]. split; [exact Hl|].
  exact (list_files_selects cfg env path pat names s H Hl).
Defined.

Lemma list_directories_selects_witness :
  let cfg := Config.shipped in
  let env := Fixture.share in
  let s := Fixture.start true in
  let names := ["AlbumA"; "AlbumB"; ".secret"] in
  Net.ready env s
  ∧ Net.listdir env (Net.full_path cfg "Artist") = Some names
  ∧ let found := fst (Net.list_directories cfg env "Artist" s) in
    found `sublist_of` names
    ∧ ∀ d, d ∈ found ↔
           d ∈ names
           ∧ Net.isdir env (Py.join (Net.full_path cfg "Artist") d) = true.
Proof.
  intros cfg env s names.
  assert (Net.ready env s) as H by (by split).
  assert (Net.listdir env (Net.full_path cfg "Artist") = Some names) as Hl
    by (vm_compute; reflexivity).
  split; [exact H|]. split; [exact Hl|].
  exact (list_directories_selects cfg env "Artist" names s H Hl).
Defined.

Lemma listing_unreadable_directory_witness :
  let cfg := Config.shipped in
  let env := Fixture.share in
  let s := Fixture.start true in
  let pat := Some (Py.ExtPattern ".flac") in
  Net.ready env s
  ∧ Net.listdir env (Net.full_path cfg "Nowhere") = None
  ∧ ∃ s1 s2,
      Net.list_directories cfg env "Nowhere" s = ([], s1)
      ∧ Net.list_files cfg env "Nowhere" pat s = ([], s2)
      ∧ Net.Log Net.ERROR "Error listing directories" ∈ Net.events s1
      ∧ Net.Log Net.ERROR "Error listing files" ∈ Net.events s2
      ∧ Net.quiet s s1 ∧ Net.quiet s s2.
Proof.
  intros cfg env s pat.
  assert (Net.ready env s) as H by (by split).
  assert (Net.listdir env (Net.full_path cfg "Nowhere") = None) as Hl
    by (vm_compute; reflexivity).
  split; [exact H|]. split; [exact Hl|].
  exact (listing_unreadable_directory cfg env "Nowhere" pat s H Hl).
Defined.

(* ===================================================================== *)
(** * Theorems: utils.py, more on clean_cache *)
(* ===================================================================== *)

Section SweepFacts.

Import Utils.
Local Open Scope Q_scope.

(** Two files of a cache without duplicate paths that share a path are
    the same file. *)
Lemma same_path_same_file (fs : Cache) f g :
  NoDup (map path fs) → f ∈ fs → g ∈ fs → path f = path g → f = g.
Proof.
  induction fs as [|h fs IH]; simpl; intros Hnd Hf Hg E.
  - by apply elem_of_nil in Hf.
  - apply NoDup_cons in Hnd as [Hh Hnd].
    apply elem_of_cons in Hf as [->|Hf], Hg as [->|Hg]; [done|..].
    + exfalso. apply Hh. rewrite E. by apply (list_elem_of_fmap_2 path).
    + exfalso. apply Hh. rewrite <- E. by apply (list_elem_of_fmap_2 path).
    + by apply IH.
Qed.

(** One turn of the loop, whatever the file: [os.remove] raises, or the
    files at that path are gone and no others. *)
Lemma os_remove_step p ps fs :
  os_remove p (without ps fs) = None
  ∨ os_remove p (without ps fs) = Some (without (ps ++ [p]) fs).
Proof.
  unfold os_remove. destruct (List.find _ _) as [f|]; [|by left].
  destruct (removable f); [right|by left]. by rewrite without_snoc.
Qed.

(** The loop only ever removes the files that come first in the order
    of access times, also when a removal fails. *)
Lemma remove_loop_prefix max fs :
  ∀ m n last, (n + m = length (oldest_first fs))%nat →
  ∃ k, (n ≤ k ≤ length (oldest_first fs))%nat
    ∧ fst (remove_loop max (drop n (oldest_first fs)) last
             (after_removing n fs))
      = after_removing k fs.
Proof.
  induction m as [|m IH]; intros n last Hlen.
  - exists n. rewrite drop_ge by lia. split; [lia|done].
  - destruct (lookup_lt_is_Some_2 (oldest_first fs) n) as [[p a] Hn]; [lia|].
    rewrite (drop_S _ _ _ Hn). cbn [remove_loop].
    assert (after_removing (S n) fs
            = without (map fst (take n (oldest_first fs)) ++ [p]) fs) as ES.
    { unfold after_removing. by rewrite (take_S_r _ _ _ Hn), map_app. }
    unfold after_removing at 1.
    destruct (os_remove_step p (map fst (take n (oldest_first fs))) fs)
      as [-> | ->].
    + exists n. split; [lia|done].
    + rewrite <- ES. destruct (Qlt_bool _ _).
      * exists (S n). split; [lia|done].
      * destruct (IH (S n) (Some (size_gb (after_removing (S n) fs))))
          as (k & Hk & E); [lia|].
        exists k. split; [lia|done].
Qed.

Lemma clean_cache_prefix fs max :
  ∃ k, (k ≤ length fs)%nat ∧ fst (clean_cache fs max) = after_removing k fs.
Proof.
  assert (after_removing 0 fs = fs) as H0 by apply without_nil.
  unfold clean_cache. destruct (Qlt_bool max (size_gb fs)).
  - destruct (remove_loop_prefix max fs (length fs) 0%nat None)
      as (k & Hk & E).
    { by rewrite oldest_first_length. }
    rewrite oldest_first_length in Hk. rewrite drop_0, H0 in E.
    fold (oldest_first fs). exists k. split; [lia|]. rewrite <- E.
    by destruct (remove_loop _ _ _ _) as [fs' [[q|]|]].
  - exists 0%nat. split; [lia|done].
Qed.

(** X13.  Least recently used goes first, whatever else happens: in a cache
    without duplicate paths, every file a sweep keeps was in the cache
    before, and was accessed no earlier than every file the sweep
    removed.  This holds also for a sweep that ends in an error. *)
Theorem clean_cache_keeps_most_recent fs max f g :
  NoDup (map path fs) →
  f ∈ fst (clean_cache fs max) → g ∈ fs → g ∉ fst (clean_cache fs max) →
  f ∈ fs ∧ atime g <= atime f.
Proof.
  intros Hnd Hf Hg Hgone.
  destruct (clean_cache_prefix fs max) as (k & Hk & E). rewrite E in *.
  unfold after_removing in *.
  apply without_elem in Hf as [Hf Hkept]. split; [done|].
  assert (path g ∈ map fst (take k (oldest_first fs))) as Hin.
  { destruct (decide (path g ∈ map fst (take k (oldest_first fs)))); [done|].
    exfalso. apply Hgone. by apply without_elem. }
  apply list_elem_of_fmap in Hin as ([pg ag] & Epg & Hin). simpl in Epg.
  assert (ag = atime g) as ->.
  { apply elem_of_take_elem, sort_by_elem, list_elem_of_fmap in Hin
      as (h & [= -> ->] & Hh).
    by rewrite (same_path_same_file fs g h Hnd Hg Hh Epg). }
  assert ((path f, atime f) ∈ drop k (oldest_first fs)) as Hlate.
  { assert ((path f, atime f) ∈ oldest_first fs) as Hall.
    { apply sort_by_elem. by apply (list_elem_of_fmap_2 (λ f, (path f, atime f))). }
    rewrite <- (take_drop k (oldest_first fs)) in Hall.
    apply elem_of_app in Hall as [Hearly|?]; [|done].
    exfalso. apply Hkept.
    by apply (list_elem_of_fmap_2 fst) in Hearly. }
  pose proof (oldest_first_sorted fs) as Hs.
  rewrite <- (take_drop k (oldest_first fs)) in Hs.
  exact (StronglySorted_app_1_elem_of _ _ _ _ _ Hs Hin Hlate).
Qed.


Lemma List_filter_shrinks {A} (f : A → bool) l x :
  x ∈ l → f x = false → (length (List.filter f l) < length l)%nat.
Proof.
  induction l as [|y l IH]; intros Hx Hfx.
  - by apply elem_of_nil in Hx.
  - pose proof (List.filter_length_le f l). simpl.
    apply elem_of_cons in Hx as [<-|Hx].
    + rewrite Hfx. lia.
    + specialize (IH Hx Hfx). destruct (f y); simpl; lia.
Qed.

Lemma os_remove_shrinks p fs fs' :
  os_remove p fs = Some fs' → (length fs' < length fs)%nat.
Proof.
  unfold os_remove. destruct (List.find _ fs) as [f|] eqn:E; [|done].
  destruct (removable f); [|done]. intros [= <-].
  apply find_some in E as [Hf Hp]. apply list_elem_of_In in Hf.
  apply (List_filter_shrinks _ _ f Hf). by rewrite Hp.
Qed.

(** What the loop leaves in [new_size] when it ends without an
    exception: the size of the cache as it then is. *)
Lemma remove_loop_report max files :
  ∀ last fs fs' q,
  remove_loop max files last fs = (fs', Some (Some q)) →
  (last = Some q ∧ fs' = fs)
  ∨ (q = size_gb fs' ∧ (length fs' < length fs)%nat).
Proof.
  induction files as [|[p a] files IH]; intros last fs fs' q; cbn [remove_loop].
  - intros [= <- ->]. by left.
  - destruct (os_remove p fs) as [fs1|] eqn:E; [|done].
    pose proof (os_remove_shrinks _ _ _ E) as Hlt.
    destruct (Qlt_bool _ _).
    + intros [= <- <-]. by right.
    + intros [[[= <-] ->] | [-> ?]]%IH; right; split; try done; lia.
Qed.

(** X14.  What a sweep reports.  Nothing is logged and nothing removed exactly
    when the cache is within the limit; the size logged after a sweep is
    the size of the cache the sweep leaves, and at least one file is then
    gone; an error can only end a sweep of a cache over the limit. *)
Theorem clean_cache_report fs max :
  match snd (clean_cache fs max) with
  | WithinLimit => fst (clean_cache fs max) = fs ∧ size_gb fs <= max
  | Cleaned q =>
      q = size_gb (fst (clean_cache fs max)) ∧ max < size_gb fs
      ∧ (length (fst (clean_cache fs max)) < length fs)%nat
  | Error => max < size_gb fs
  end.
Proof.
  unfold clean_cache. destruct (Qlt_bool max (size_gb fs)) eqn:Hover.
  - apply Qlt_bool_iff in Hover.
    destruct (remove_loop _ _ _ _) as [fs' [[q|]|]] eqn:E; simpl; try done.
    apply remove_loop_report in E as [[? _]|[? ?]]; done.
  - simpl. split; [done|]. apply Qnot_lt_le. intros H%Qlt_bool_iff. congruence.
Qed.

(** X15.  A second sweep right after a sweep finds nothing to do, provided
    every cached file can be removed and the limit is not negative. *)
Theorem clean_cache_twice fs max :
  NoDup (map path fs) → (∀ f, f ∈ fs → removable f = true) → 0 <= max →
  clean_cache (fst (clean_cache fs max)) max
  = (fst (clean_cache fs max), WithinLimit).
Proof.
  intros Hnd Hrm Hmax.
  assert (size_gb (fst (clean_cache fs max)) <= max) as Hfits.
  { unfold clean_cache. destruct (Qlt_bool max (size_gb fs)) eqn:Hover.
    - destruct (remove_loop_spec max fs Hnd Hrm (length fs) 0%nat None)
        as (k & Hk & _ & E & Hbelow & _).
      { by rewrite oldest_first_length. }
      rewrite oldest_first_length in Hk, Hbelow.
      assert (after_removing 0 fs = fs) as H0 by apply without_nil.
      rewrite drop_0, H0 in E. fold (oldest_first fs). rewrite E.
      assert (fst (let (fs', o) :=
                     (after_removing k fs,
                      Some (if decide (length fs = 0%nat) then None
                            else Some (size_gb (after_removing k fs)))) in
                   match o with
                   | Some (Some new_size) => (fs', Cleaned new_size)
                   | _ => (fs', Error)
                   end) = after_removing k fs) as ->.
      { by destruct (decide (length fs = 0%nat)). }
      destruct (decide (k < length fs)%nat) as [Hlt|Hge].
      + specialize (Hbelow Hlt). unfold threshold in Hbelow. lra.
      + assert (after_removing k fs = []) as ->; [|by rewrite size_gb_nil].
        apply without_all. intros f Hf. rewrite firstn_all2.
        * rewrite oldest_first_paths. by apply (list_elem_of_fmap_2 path).
        * rewrite oldest_first_length. lia.
    - simpl. apply Qnot_lt_le. intros H%Qlt_bool_iff. congruence. }
  unfold clean_cache at 1.
  destruct (Qlt_bool max (size_gb (fst (clean_cache fs max)))) eqn:Hover;
    [|done].
  apply Qlt_bool_iff in Hover. lra.
Qed.

(** The first of the files in the order of access times. *)
Lemma oldest_first_head fs f :
  NoDup (map path fs) → f ∈ fs →
  (∀ g, g ∈ fs → g = f ∨ atime f < atime g) →
  ∃ rest, oldest_first fs = (path f, atime f) :: rest.
Proof.
  intros Hnd Hf Hold.
  pose proof (oldest_first_sorted fs) as Hs.
  assert ((path f, atime f) ∈ oldest_first fs) as Hin.
  { apply sort_by_elem. by apply (list_elem_of_fmap_2 (λ f, (path f, atime f))). }
  destruct (oldest_first fs) as [|[p a] rest] eqn:E.
  { by apply elem_of_nil in Hin. }
  exists rest. f_equal.
  assert ((p, a) ∈ oldest_first fs) as Hh by (rewrite E; apply list_elem_of_here).
  apply sort_by_elem, list_elem_of_fmap in Hh as (h & [= -> ->] & Hh).
  destruct (Hold h Hh) as [->|Hlt]; [done|]. exfalso.
  apply elem_of_cons in Hin as [[= _ Ea]|Hin].
  - rewrite Ea in Hlt. by apply Qlt_irrefl in Hlt.
  - apply StronglySorted_inv in Hs as [_ Hall].
    apply Forall_forall with (x := (path f, atime f)) in Hall; [|done].
    simpl in Hall. lra.
Qed.

(** X16.  One file that cannot be removed blocks the eviction when it is the
    least recently accessed one: the sweep of a cache over the limit then
    ends in the error branch with every file still there, however many
    other files could have gone. *)
Theorem clean_cache_stuck_on_oldest fs max f :
  NoDup (map path fs) → max < size_gb fs →
  f ∈ fs → removable f = false →
  (∀ g, g ∈ fs → g = f ∨ atime f < atime g) →
  clean_cache fs max = (fs, Error).
Proof.
  intros Hnd Hover Hf Hstuck Hold.
  destruct (oldest_first_head fs f Hnd Hf Hold) as (rest & E).
  unfold clean_cache. apply Qlt_bool_iff in Hover. rewrite Hover.
  fold (oldest_first fs). rewrite E. cbn [remove_loop].
  assert (os_remove (path f) fs = None) as ->; [|done].
  unfold os_remove. destruct (List.find _ fs) as [h|] eqn:Eh; [|done].
  apply find_some in Eh as [Hh Hp]. apply list_elem_of_In in Hh.
  apply bool_decide_eq_true in Hp.
  rewrite (same_path_same_file fs h f Hnd Hh Hf Hp). by rewrite Hstuck.
Qed.

End SweepFacts.

Lemma clean_cache_keeps_most_recent_witness :
  let f := Fixture.gib_file "c.flac" 3 3 in
  let g := Fixture.gib_file "a.flac" 2 1 in
  NoDup (map Utils.path Fixture.cache3)
  ∧ f ∈ fst (Utils.clean_cache Fixture.cache3 5)
  ∧ g ∈ Fixture.cache3
  ∧ (g ∉ fst (Utils.clean_cache Fixture.cache3 5))
  ∧ f ∈ Fixture.cache3 ∧ (Utils.atime g <= Utils.atime f)%Q.
Proof.
  intros f g.
  assert (fst (Utils.clean_cache Fixture.cache3 5) = [f]) as E
    by (vm_compute; reflexivity).
  assert (H1 : NoDup (map Utils.path Fixture.cache3)).
  { apply (bool_decide_unpack (NoDup (map Utils.path Fixture.cache3))).
    vm_compute. exact I. }
  assert (H2 : f ∈ fst (Utils.clean_cache Fixture.cache3 5))
    by (rewrite E; apply list_elem_of_here).
  assert (H3 : g ∈ Fixture.cache3)
    by (apply list_elem_of_further, list_elem_of_here).
  assert (H4 : g ∉ fst (Utils.clean_cache Fixture.cache3 5)).
  { rewrite E. intros H%list_elem_of_singleton. discriminate H. }
  repeat (split; [assumption|]).
  exact (clean_cache_keeps_most_recent Fixture.cache3 5 f g H1 H2 H3 H4).
Defined.

Lemma clean_cache_twice_witness :
  NoDup (map Utils.path Fixture.cache3)
  ∧ (∀ f, f ∈ Fixture.cache3 → Utils.removable f = true)
  ∧ (0 <= 5)%Q
  ∧ Utils.clean_cache (fst (Utils.clean_cache Fixture.cache3 5)) 5
    = (fst (Utils.clean_cache Fixture.cache3 5), Utils.WithinLimit).
Proof.
  assert (H1 : NoDup (map Utils.path Fixture.cache3)).
  { apply (bool_decide_unpack (NoDup (map Utils.path Fixture.cache3))).
    vm_compute. exact I. }
  assert (H2 : ∀ f, f ∈ Fixture.cache3 → Utils.removable f = true).
  { intros f Hf. unfold Fixture.cache3 in Hf.
    repeat (apply elem_of_cons in Hf as [->|Hf]; [reflexivity|]).
    by apply elem_of_nil in Hf. }
  assert (H3 : (0 <= 5)%Q) by (vm_compute; discriminate).
  repeat (split; [assumption|]).
  exact (clean_cache_twice Fixture.cache3 5 H1 H2 H3).
Defined.

Lemma clean_cache_stuck_on_oldest_witness :
  let f := {| Utils.path := "a.flac"; Utils.size := Z.to_N (2 * 1024 ^ 3);
              Utils.atime := inject_Z 1; Utils.removable := false |} in
  NoDup (map Utils.path Fixture.pinned_cache)
  ∧ (5 < Utils.size_gb Fixture.pinned_cache)%Q
  ∧ f ∈ Fixture.pinned_cache
  ∧ Utils.removable f = false
  ∧ (∀ g, g ∈ Fixture.pinned_cache → g = f ∨ (Utils.atime f < Utils.atime g)%Q)
  ∧ Utils.clean_cache Fixture.pinned_cache 5 = (Fixture.pinned_cache, Utils.Error).
Proof.
  intros f.
  assert (H1 : NoDup (map Utils.path Fixture.pinned_cache)).
  { apply (bool_decide_unpack (NoDup (map Utils.path Fixture.pinned_cache))).
    vm_compute. exact I. }
  assert (H2 : (5 < Utils.size_gb Fixture.pinned_cache)%Q)
    by (vm_compute; reflexivity).
  assert (H3 : f ∈ Fixture.pinned_cache)
    by (apply list_elem_of_further, list_elem_of_here).
  assert (H4 : Utils.removable f = false) by reflexivity.
  assert (H5 : ∀ g, g ∈ Fixture.pinned_cache →
                 g = f ∨ (Utils.atime f < Utils.atime g)%Q).
  { intros g Hg. unfold Fixture.pinned_cache in Hg.
    apply elem_of_cons in Hg as [->|Hg]; [right; vm_compute; reflexivity|].
    apply elem_of_cons in Hg as [->|Hg]; [by left|].
    apply elem_of_cons in Hg as [->|Hg]; [right; vm_compute; reflexivity|].
    by apply elem_of_nil in Hg. }
  repeat (split; [assumption|]).
  exact (clean_cache_stuck_on_oldest Fixture.pinned_cache 5 f H1 H2 H3 H4 H5).
Defined.

(* ===================================================================== *)
(** * Theorems: music_library.py, more on the queries *)
(* ===================================================================== *)

Section QueryMore.

Import Library.

(** The first row with the id of a row of a table without duplicate ids
    is that row. *)
Lemma find_by_id (tbl : list AlbumRow) a :
  NoDup (map a_id tbl) → a ∈ tbl →
  List.find (λ r, bool_decide (a_id r = a_id a)) tbl = Some a.
Proof.
  induction tbl as [|r tbl IH]; intros Hnd Ha.
  - by apply elem_of_nil in Ha.
  - apply NoDup_cons in Hnd as [Hr Hnd]. cbn [List.find map] in *.
    apply elem_of_cons in Ha as [->|Ha].
    + by rewrite bool_decide_eq_true_2.
    + rewrite bool_decide_eq_false_2; [by apply IH|].
      intros E. apply Hr. rewrite E. by apply (list_elem_of_fmap_2 a_id).
Qed.

(** X17.  Search, then open: every album [search_albums] returns is what
    [get_album_by_id] returns for its id, in a table without duplicate
    ids. *)
Theorem search_then_get query db ai :
  NoDup (map a_id (albums db)) →
  ai ∈ search_albums query db →
  get_album_by_id (ai_id ai) db = Some ai.
Proof.
  intros Hnd (a & Ha & ->)%search_albums_rows.
  unfold get_album_by_id. cbn [ai_id album_info].
  by rewrite (find_by_id _ a Hnd Ha).
Qed.

(** X18.  [get_album_by_id] finds nothing exactly for an id no album has.
    What it finds is an album with the id asked for, with the tracks
    whose [album_id] is that id, all of them and no others, ordered by
    disc number, track number and title. *)
Theorem get_album_by_id_spec album_id db :
  match get_album_by_id album_id db with
  | None => album_id ∉ map a_id (albums db)
  | Some ai =>
      ai_id ai = album_id
      ∧ (∃ a, a ∈ albums db ∧ a_id a = album_id
              ∧ (ai_title ai, ai_artist ai, ai_year ai, ai_directory ai,
                 ai_cover_art ai)
                = (a_title a, a_artist a, a_year a, a_directory a,
                   a_cover_art a))
      ∧ (∀ t, t ∈ ai_tracks ai ↔
              ∃ r, r ∈ tracks db ∧ t_album_id r = album_id ∧ t = track_info r)
      ∧ length (ai_tracks ai)
        = length (filter (λ r, t_album_id r = album_id) (tracks db))
      ∧ StronglySorted track_order (ai_tracks ai)
  end.
Proof.
  unfold get_album_by_id.
  destruct (List.find _ (albums db)) as [a|] eqn:E.
  - apply find_some in E as [Ha Hid]. apply list_elem_of_In in Ha.
    apply bool_decide_eq_true in Hid. cbn [ai_id ai_tracks album_info].
    rewrite Hid. split; [done|]. split; [by exists a|].
    unfold select_tracks. split; [|split].
    + intros t. rewrite list_elem_of_fmap. split.
      * intros (r & -> & [? ?]%sort_by_elem%list_elem_of_filter). by exists r.
      * intros (r & Hr & Ea & ->). exists r. split; [done|].
        apply sort_by_elem, list_elem_of_filter. by split.
    + by rewrite length_map, sort_by_length.
    + apply StronglySorted_map_keeps.
      eapply StronglySorted_weaken;
        [|apply (sort_by_sorted track_le track_le_total track_le_trans)].
      intros x y. apply track_le_order.
  - intros (a & -> & Ha)%list_elem_of_fmap.
    apply list_elem_of_In in Ha.
    pose proof (find_none _ _ E a Ha) as Hb. simpl in Hb.
    by apply bool_decide_eq_false in Hb.
Qed.

Lemma List_filter_all {A} (f : A → bool) l :
  (∀ x, x ∈ l → f x = true) → List.filter f l = l.
Proof.
  induction l as [|x l IH]; intros H; simpl; [done|].
  rewrite (H x) by apply list_elem_of_here. f_equal.
  apply IH. intros y Hy. apply H. by apply list_elem_of_further.
Qed.

Lemma like_everything s : like s "%%" = true.
Proof.
  unfold like. change (String.list_ascii_of_string "%%") with ["%"; "%"]%char.
  rewrite like_chars_star. by rewrite like_chars_percent.
Qed.

(** X19.  The empty query matches every album: [search_albums ""] returns the
    first ten albums of the whole table in the order of their titles. *)
Theorem search_albums_empty_query db :
  search_albums "" db
  = map (album_info db) (take 10 (sort_by album_le (albums db))).
Proof.
  unfold search_albums, select_albums.
  change ("%" +:+ "" +:+ "%") with "%%".
  rewrite List_filter_all; [done|].
  intros a _. by rewrite like_everything.
Qed.

(** X20.  Nothing that matches is left out while at most ten albums match:
    every album whose title or artist matches the pattern is then among
    the results. *)
Theorem search_albums_complete query db a :
  let matches r :=
    like (a_title r) ("%" +:+ query +:+ "%")
    || like (a_artist r) ("%" +:+ query +:+ "%") in
  (length (List.filter matches (albums db)) ≤ 10)%nat →
  a ∈ albums db → matches a = true →
  album_info db a ∈ search_albums query db.
Proof.
  intros matches Hfew Ha Hm. unfold search_albums, select_albums.
  apply (list_elem_of_fmap_2 (album_info db)).
  fold matches. rewrite take_ge.
  - apply sort_by_elem, list_elem_of_In, filter_In.
    split; [by apply list_elem_of_In|done].
  - by rewrite sort_by_length.
Qed.

End QueryMore.

Lemma search_then_get_witness :
  let db := Fixture.scanned in
  let a := {| Library.a_id := 1; Library.a_title := "AlbumA";
              Library.a_artist := "Artist";
              Library.a_year := "Unknown Year";
              Library.a_directory := "Artist/AlbumA";
              Library.a_cover_art := Some "Artist/AlbumA/cover.jpg";
              Library.a_last_updated := 1700000000 |} in
  let ai := Library.album_info db a in
  NoDup (map Library.a_id (Library.albums db))
  ∧ ai ∈ Library.search_albums "albuma" db
  ∧ Library.get_album_by_id (Library.ai_id ai) db = Some ai.
Proof.
  intros db a ai.
  assert (H1 : NoDup (map Library.a_id (Library.albums db))).
  { apply (bool_decide_unpack (NoDup (map Library.a_id (Library.albums db)))).
    vm_compute. exact I. }
  assert (H2 : ai ∈ Library.search_albums "albuma" db).
  { unfold Library.search_albums.
    assert (Library.select_albums "albuma" db = [a]) as ->
      by (vm_compute; reflexivity).
    apply list_elem_of_here. }
  split; [exact H1|]. split; [exact H2|].
  exact (search_then_get "albuma" db ai H1 H2).
Defined.

Lemma search_albums_complete_witness :
  let db := Fixture.scanned in
  let a := {| Library.a_id := 1; Library.a_title := "AlbumA";
              Library.a_artist := "Artist";
              Library.a_year := "Unknown Year";
              Library.a_directory := "Artist/AlbumA";
              Library.a_cover_art := Some "Artist/AlbumA/cover.jpg";
              Library.a_last_updated := 1700000000 |} in
  let matches r :=
    Library.like (Library.a_title r) ("%" +:+ "artist" +:+ "%")
    || Library.like (Library.a_artist r) ("%" +:+ "artist" +:+ "%") in
  (length (List.filter matches (Library.albums db)) ≤ 10)%nat
  ∧ a ∈ Library.albums db
  ∧ matches a = true
  ∧ Library.album_info db a ∈ Library.search_albums "artist" db.
Proof.
  intros db a matches.
  assert (H1 : (length (List.filter matches (Library.albums db)) ≤ 10)%nat)
    by (vm_compute; lia).
  assert (H2 : a ∈ Library.albums db).
  { assert (Library.albums db = a :: tail (Library.albums db)) as ->
      by (vm_compute; reflexivity).
    apply list_elem_of_here. }
  assert (H3 : matches a = true) by (vm_compute; reflexivity).
  split; [exact H1|]. split; [exact H2|]. split; [exact H3|].
  exact (search_albums_complete "artist" db a H1 H2 H3).
Defined.

(* ===================================================================== *)
(** * Theorems: music_library.py, more on the scanner *)
(* ===================================================================== *)

Section TableMore.

Import Library.
Context {R X : Type} (key : R → string) (rid : R → Z).
Variables (kf : X → string) (mk : X → Z → R).
Hypothesis mk_key : ∀ x i, key (mk x i) = kf x.
Hypothesis mk_rid : ∀ x i, rid (mk x i) = i.

(** A row whose key is not written stays as it is. *)
Lemma upserts_keeps tbl xs r :
  r ∈ tbl → key r ∉ map kf xs → r ∈ upserts key rid kf mk tbl xs.
Proof.
  revert tbl. induction xs as [|x xs IH]; intros tbl Hr Hk; simpl; [done|].
  apply not_elem_of_cons in Hk as [Hne Hk].
  apply IH; [|done]. apply upsert_elem. by left.
Qed.

(** Rowids stay unique: a new row gets a rowid above all others. *)
Lemma upsert_NoDup_rids k (mk1 : Z → R) tbl :
  (∀ i, rid (mk1 i) = i) →
  NoDup (map rid tbl) → NoDup (map rid (upsert key rid k mk1 tbl)).
Proof.
  intros Hrid Hnd. unfold upsert. rewrite map_app. simpl.
  apply NoDup_app. split; [|split].
  - clear Hrid. induction tbl as [|r tbl IH]; simpl; [constructor|].
    apply NoDup_cons in Hnd as [Hr Hnd]. rewrite filter_cons.
    destruct (decide (key r ≠ k)); [|by apply IH]. simpl.
    apply NoDup_cons. split; [|by apply IH].
    intros (r' & E & [_ Hr']%list_elem_of_filter)%list_elem_of_fmap.
    apply Hr. rewrite E. by apply (list_elem_of_fmap_2 rid).
  - intros i Hi. rewrite Hrid. intros ->%list_elem_of_singleton.
    apply list_elem_of_fmap in Hi as (r & E & [_ Hr]%list_elem_of_filter).
    assert (rid r < next_rowid (map rid tbl)) as Hlt.
    { apply next_rowid_gt. by apply (list_elem_of_fmap_2 rid). }
    lia.
  - apply NoDup_singleton.
Qed.

Lemma upserts_NoDup_rids tbl xs :
  NoDup (map rid tbl) → NoDup (map rid (upserts key rid kf mk tbl xs)).
Proof.
  revert tbl. induction xs as [|x xs IH]; intros tbl Hnd; simpl; [done|].
  apply IH. apply upsert_NoDup_rids; [|done]. intros i. apply mk_rid.
Qed.

End TableMore.

Section ScanMore.

Import Net Library.
Local Open Scope net_scope.
Variable cfg : Config.t.
Variable env : Env.

Local Abbreviation hopeless := (hopeless env).
Local Abbreviation ready := (ready env).
Local Abbreviation music_files_of := (music_files_of cfg env).
Local Abbreviation has_music := (has_music cfg env).
Local Abbreviation mk_album := (mk_album cfg env).
Local Abbreviation mk_track := (mk_track cfg env).
Local Abbreviation paths_in := (paths_in cfg env).
Local Abbreviation candidates := (candidates cfg env).
Local Abbreviation scan_pure := (scan_pure cfg env).
Local Abbreviation dirs_of := (dirs_of cfg env).

(** The store a scan leaves, from any state of the mount: the one it
    found, or the one the visits of the candidate directories produce. *)
Lemma scan_library_store db s :
  snd (fst (scan_library cfg env db s)) = db
  ∨ ∃ c cs items,
      albums (snd (fst (scan_library cfg env db s)))
      = upserts a_directory a_id id (mk_album c) (albums db)
          (List.filter has_music cs)
      ∧ tracks (snd (fst (scan_library cfg env db s)))
        = upserts t_file_path t_id item_path mk_track (tracks db) items.
Proof.
  destruct (scan_library_cases cfg env db s) as [(s' & -> & _)|(c & s' & -> & _)].
  - by left.
  - right. unfold Library.scan_pure.
    destruct (visits_store cfg env c (flat_map candidates (dirs_of "")) 0 db)
      as (items & -> & _).
    by exists c, (flat_map candidates (dirs_of "")), items.
Qed.

(** X21.  A scan never drops a directory or a file from the index, whatever
    the share holds now: every album row it found is still there
    unchanged, or has been replaced by a row for the same directory under
    an id no album had before; likewise every track row, by file path. *)
Theorem scan_library_never_forgets db s :
  let db' := snd (fst (scan_library cfg env db s)) in
  (∀ a, a ∈ albums db →
     a ∈ albums db'
     ∨ ∃ a', a' ∈ albums db' ∧ a_directory a' = a_directory a
             ∧ a_id a' ∉ map a_id (albums db))
  ∧ (∀ t, t ∈ tracks db →
     t ∈ tracks db'
     ∨ ∃ t', t' ∈ tracks db' ∧ t_file_path t' = t_file_path t
             ∧ t_id t' ∉ map t_id (tracks db)).
Proof.
  intros db'. subst db'.
  destruct (scan_library_store db s) as [->|(c & cs & items & -> & ->)].
  { split; intros; by left. }
  split.
  - intros a Ha.
    destruct (decide (a_directory a ∈ map id (List.filter has_music cs)))
      as [Hin|Hout].
    + right.
      assert (a_directory a
              ∈ map a_directory
                  (upserts a_directory a_id id (mk_album c) (albums db)
                     (List.filter has_music cs))) as Hk.
      { apply upserts_keys; [apply mk_album_directory|]. by right. }
      apply list_elem_of_fmap in Hk as (a' & Ea & Ha').
      exists a'. split; [done|]. split; [done|].
      eapply (upserts_fresh a_directory a_id id (mk_album c));
        [apply mk_album_id|exact Ha'|]. by rewrite <- Ea.
    + left. by apply upserts_keeps.
  - intros t Ht.
    destruct (decide (t_file_path t ∈ map item_path items)) as [Hin|Hout].
    + right.
      assert (t_file_path t
              ∈ map t_file_path
                  (upserts t_file_path t_id item_path mk_track (tracks db)
                     items)) as Hk.
      { apply upserts_keys; [apply mk_track_path|]. by right. }
      apply list_elem_of_fmap in Hk as (t' & Et & Ht').
      exists t'. split; [done|]. split; [done|].
      eapply (upserts_fresh t_file_path t_id item_path mk_track);
        [apply mk_track_id|exact Ht'|]. by rewrite <- Et.
    + left. by apply upserts_keeps.
Qed.

(** X22.  Ids stay unique across a scan: from a store in which no two albums
    and no two tracks share an id, a scan leaves such a store, from any
    state of the mount. *)
Theorem scan_library_keeps_ids_unique db s :
  NoDup (map a_id (albums db)) → NoDup (map t_id (tracks db)) →
  let db' := snd (fst (scan_library cfg env db s)) in
  NoDup (map a_id (albums db')) ∧ NoDup (map t_id (tracks db')).
Proof.
  intros Ha Ht db'. subst db'.
  destruct (scan_library_store db s) as [->|(c & cs & items & -> & ->)];
    [done|].
  split.
  - apply upserts_NoDup_rids; [apply mk_album_id|done].
  - apply upserts_NoDup_rids; [apply mk_track_id|done].
Qed.




Local Ltac step H s1 E Q :=
  match goal with
  | Hs : Net.ready env ?s |- context [bind _ _ ?s] =>
      destruct (H s Hs) as (s1 & E & Q);
      rewrite (bind_run _ _ _ _ _ E);
      let Hs1 := fresh "Hs" in
      pose proof (ready_quiet env _ _ Hs Q) as Hs1;
      clear Hs
  end.

(** X24.  A directory without a file of a supported format is no album:
    [_process_album_directory] answers 0 and writes nothing. *)
Theorem process_album_without_music album_dir db s :
  ready s → music_files_of album_dir = [] →
  ∃ s', _process_album_directory cfg env album_dir db s = ((0, db), s')
        ∧ quiet s s'.
Proof.
  intros Hs Hnone.
  destruct (steady_process cfg env album_dir db s Hs) as (s' & E & Q).
  exists s'. split; [|done]. rewrite E. f_equal.
  apply process_pure_no_music. unfold Library.has_music. by rewrite Hnone.
Qed.





(** X28.  The cover of an album is the first of the candidate names, in the
    order of the source, that exists in the album directory; there is
    none only when no candidate exists. *)
Theorem find_cover_art_first album_dir names s :
  ready s →
  let present n :=
    fst (os_path_exists cfg env
           (Py.join (Config.MOUNT_POINT cfg) (Py.join album_dir n)) s) in
  match fst (find_cover_art cfg env album_dir names s) with
  | None => ∀ n, n ∈ names → present n = false
  | Some p =>
      ∃ before n after,
        names = before ++ n :: after ∧ p = Py.join album_dir n
        ∧ present n = true ∧ ∀ m, m ∈ before → present m = false
  end.
Proof.
  intros Hs present.
  destruct (steady_cover cfg env album_dir names s Hs) as (s' & -> & _).
  cbn [fst].
  assert (∀ n, present n
               = bool_decide (Py.join (Config.MOUNT_POINT cfg)
                                (Py.join album_dir n) ∈ copied s)
                 || exists_ env (Py.join (Config.MOUNT_POINT cfg)
                                   (Py.join album_dir n))) as Hpresent.
  { intros n. subst present.
    by destruct (steady_exists cfg env
                   (Py.join (Config.MOUNT_POINT cfg) (Py.join album_dir n))
                   s Hs) as (s1 & -> & _). }
  clearbody present.
  induction names as [|n names IH]; cbn [cover_of].
  - by intros n ?%elem_of_nil.
  - rewrite <- Hpresent. destruct (present n) eqn:Hn.
    + exists [], n, names. split; [done|]. split; [done|]. split; [done|].
      by intros m ?%elem_of_nil.
    + destruct (cover_of cfg env (copied s) album_dir names) as [p|].
      * destruct IH as (before & n' & after & -> & -> & Hn' & Hb).
        exists (n :: before), n', after. split; [done|]. split; [done|].
        split; [done|]. intros m [->|Hm]%elem_of_cons; [done|by apply Hb].
      * intros m [->|Hm]%elem_of_cons; [done|by apply IH].
Qed.

End ScanMore.

Lemma scan_library_keeps_ids_unique_witness :
  let cfg := Config.shipped in
  let env := Fixture.share in
  let db := Fixture.scanned in
  let s := Fixture.start false in
  NoDup (map Library.a_id (Library.albums db))
  ∧ NoDup (map Library.t_id (Library.tracks db))
  ∧ let db' := snd (fst (Library.scan_library cfg env db s)) in
    NoDup (map Library.a_id (Library.albums db'))
    ∧ NoDup (map Library.t_id (Library.tracks db')).
Proof.
  intros cfg env db s.
  assert (H1 : NoDup (map Library.a_id (Library.albums db))).
  { apply (bool_decide_unpack (NoDup (map Library.a_id (Library.albums db)))).
    vm_compute. exact I. }
  assert (H2 : NoDup (map Library.t_id (Library.tracks db))).
  { apply (bool_decide_unpack (NoDup (map Library.t_id (Library.tracks db)))).
    vm_compute. exact I. }
  split; [exact H1|]. split; [exact H2|].
  exact (scan_library_keeps_ids_unique cfg env db s H1 H2).
Defined.

Lemma process_album_without_music_witness :
  let cfg := Config.shipped in
  let env := Fixture.share in
  let s := Fixture.start true in
  Net.ready env s
  ∧ Library.music_files_of cfg env "Artist" = []
  ∧ ∃ s', Library._process_album_directory cfg env "Artist" Fixture.scanned s
          = ((0, Fixture.scanned), s')
          ∧ Net.quiet s s'.
Proof.
  intros cfg env s.
  assert (H1 : Net.ready env s) by (by split).
  assert (H2 : Library.music_files_of cfg env "Artist" = [])
    by (vm_compute; reflexivity).
  split; [exact H1|]. split; [exact H2|].
  exact (process_album_without_music cfg env "Artist" Fixture.scanned s H1 H2).
Defined.




Lemma find_cover_art_first_witness :
  let cfg := Config.shipped in
  let env := Fixture.share in
  let s := Fixture.start true in
  let d := "Artist/AlbumA" in
  Net.ready env s
  ∧ let present n :=
      fst (Net.os_path_exists cfg env
             (Py.join (Config.MOUNT_POINT cfg) (Py.join d n)) s) in
    match fst (Library.find_cover_art cfg env d Library.COVER_NAMES s) with
    | None => ∀ n, n ∈ Library.COVER_NAMES → present n = false
    | Some p =>
        ∃ before n after,
          Library.COVER_NAMES = before ++ n :: after ∧ p = Py.join d n
          ∧ present n = true ∧ ∀ m, m ∈ before → present m = false
    end.
Proof.
  intros cfg env s d.
  assert (H1 : Net.ready env s) by (by split).
  split; [exact H1|].
  exact (find_cover_art_first cfg env d Library.COVER_NAMES s H1).
Defined.

(* ===================================================================== *)
(** * Theorems: audio_player.py, play_album over the network handler *)
(* ===================================================================== *)

Section PlayerFacts.

Import Net Library Player.
Local Open Scope player_scope.
Variable cfg : Config.t.
Variable env : Env.
Variable server : Server.
Variable ensure_connected : P bool.

Local Abbreviation cache_file := (cache_file cfg).
Local Abbreviation network_file := (network_file cfg).
Local Abbreviation add_tracks := (add_tracks cfg env server).
Local Abbreviation play_album := (play_album cfg env server ensure_connected).

(** The URI under which a track can be queued: its cache path or its
    path below the mount point. *)
Local Abbreviation uri_of t u :=
  (u = "file://" +:+ cache_file (ti_file_path t)
   ∨ u = "file://" +:+ network_file (ti_file_path t)).

Lemma lift_run {A} (m : Net.M A) w a n :
  m (net w) = (a, n) → lift m w = (a, {| net := n; calls := calls w |}).
Proof. unfold lift. by intros ->. Qed.

Lemma pbind_run {A B} (m : P A) (f : A → P B) w a w' :
  m w = (a, w') → Player.bind m f w = f a w'.
Proof. unfold Player.bind. by intros ->. Qed.

Lemma join_nonempty a b : b ≠ "" → Py.join a b ≠ "".
Proof.
  intros Hb. unfold Py.join.
  destruct (Py.startswith b "/"); [done|].
  destruct (decide (a = "")); [done|].
  destruct a as [|c a]; [done|].
  by destruct (Py.endswith _ _).
Qed.

(** On a mounted share a file that is there is always served. *)
Lemma get_file_path_ready p s :
  ready env s → exists_ env (network_file p) = true →
  ∃ q s', get_file_path cfg env p s = (Some q, s')
          ∧ ready env s' ∧ (q = cache_file p ∨ q = network_file p).
Proof.
  intros Hs Hthere. rewrite get_file_path_run.
  assert (∀ s0, ready env s0 →
            fst (os_path_exists cfg env (network_file p) s0) = true) as Hseen.
  { intros s0 [_ Hm]. unfold os_path_exists, visible.
    cbv [Net.bind Net.ret emit get_copied get_mounted fst].
    simpl. by rewrite Hm, Hthere, !orb_true_r. }
  assert (∀ s0 e, ready env s0 →
            ready env {| mounted := mounted s0; copied := copied s0;
                         events := e :: events s0 |}) as Hstat by done.
  destruct (Config.CACHE_ENABLED cfg).
  - destruct (fst (os_path_exists cfg env (cache_file p) s)).
    { eexists _, _. split; [reflexivity|]. split; [by apply Hstat|by left]. }
    destruct (ensure_mounted_ready cfg env _ (Hstat s (Stat (cache_file p)) Hs))
      as (s2 & -> & Q).
    pose proof (ready_quiet env _ _ (Hstat s (Stat (cache_file p)) Hs) Q) as Hs2.
    change (negb true) with false; cbv iota.
    rewrite (Hseen s2 Hs2). change (negb true) with false; cbv iota.
    destruct Hs2 as [Hp Hm].
    destruct (copy_ok env _ _); eexists _, _;
      (split; [reflexivity|]); (split; [by split|]); by (left + right).
  - destruct (ensure_mounted_ready cfg env s Hs) as (s2 & -> & Q).
    pose proof (ready_quiet env _ _ Hs Q) as Hs2.
    change (negb true) with false; cbv iota.
    rewrite (Hseen s2 Hs2).
    eexists _, _. split; [reflexivity|]. split; [by apply Hstat|by right].
Qed.

(** The loop on a mounted share that holds every track, with a server
    that takes every [add]: each track is queued, in order. *)
Lemma add_tracks_all tracks :
  (∀ u, add_ok server u = true) →
  (∀ t, t ∈ tracks →
     ti_file_path t ≠ ""
     ∧ exists_ env (network_file (ti_file_path t)) = true) →
  ∀ w, ready env (net w) →
  ∃ w' uris,
    add_tracks tracks w = (true, w')
    ∧ ready env (net w')
    ∧ calls w' = rev (map Add uris) ++ calls w
    ∧ Forall2 (λ t u, uri_of t u) tracks uris.
Proof.
  intros Hadd. induction tracks as [|t tracks IH]; intros Hall w Hw.
  - exists w, []. split; [done|]. split; [done|]. split; [done|constructor].
  - destruct (Hall t) as [Hne Hthere]; [apply list_elem_of_here|].
    destruct (get_file_path_ready (ti_file_path t) (net w) Hw Hthere)
      as (q & n & E & Hn & Hq).
    cbn [Player.add_tracks].
    rewrite (pbind_run _ _ _ _ _ (lift_run _ _ _ _ E)).
    assert (q ≠ "") as Hqne.
    { destruct Hq as [-> | ->]; by apply join_nonempty. }
    destruct (decide (q = "")); [done|].
    unfold client_add, call, Player.bind at 1. rewrite Hadd. cbn [net calls].
    destruct (IH (λ t' Ht', Hall t' (list_elem_of_further _ _ _ Ht'))
                {| net := n; calls := Add ("file://" +:+ q) :: calls w |} Hn)
      as (w' & uris & -> & Hw' & Hcalls & Huris).
    exists w', (("file://" +:+ q) :: uris). split; [done|]. split; [done|].
    split.
    + rewrite Hcalls. simpl. by rewrite <- app_assoc.
    + constructor; [|done]. destruct Hq as [-> | ->]; by (left + right).
Qed.

(** X29.  The player and the share together.  With the player connected, the
    share mounted, every track of the album on the share and a server
    that takes every call, [play_album] answers [True], and what it asks
    of the server is: clear the queue, add every track of the album in
    the album's order, each as [file://] and its cache path or its path
    below the mount point, and start playback. *)
Theorem play_album_queues_every_track a w w1 :
  ensure_connected w = (true, w1) → ready env (net w1) →
  ai_tracks a ≠ [] →
  (∀ t, t ∈ ai_tracks a →
     ti_file_path t ≠ ""
     ∧ exists_ env (network_file (ti_file_path t)) = true) →
  clear_ok server = true → (∀ u, add_ok server u = true) →
  play_ok server = true →
  ∃ w2 uris,
    play_album (Some a) w = (true, w2)
    ∧ calls w2 = Play :: rev (map Add uris) ++ Clear :: calls w1
    ∧ Forall2 (λ t u, uri_of t u) (ai_tracks a) uris.
Proof.
  intros Hconn Hw1 Hne Hall Hclear Hadd Hplay.
  unfold Player.play_album. rewrite (pbind_run _ _ _ _ _ Hconn).
  change (negb true) with false; cbv iota.
  destruct (ai_tracks a) as [|t0 more] eqn:Etracks; [done|].
  unfold client_clear, call, Player.bind at 1. rewrite Hclear.
  change (negb true) with false; cbv iota.
  destruct (add_tracks_all (t0 :: more) Hadd Hall
              {| net := net w1; calls := Clear :: calls w1 |} Hw1)
    as (w' & uris & E & _ & Hcalls & Huris).
  rewrite (pbind_run _ _ _ _ _ E).
  change (negb true) with false; cbv iota.
  unfold client_play, call, Player.bind at 1. rewrite Hplay.
  change (negb true) with false; cbv iota.
  eexists _, uris. split; [reflexivity|]. split; [|done].
  simpl. by rewrite Hcalls.
Qed.


Lemma get_file_path_some p s q :
  fst (get_file_path cfg env p s) = Some q →
  q = cache_file p ∨ q = network_file p.
Proof.
  rewrite get_file_path_run.
  destruct (Config.CACHE_ENABLED cfg).
  - destruct (fst (os_path_exists cfg env (cache_file p) s)).
    { intros [= <-]. by left. }
    destruct (ensure_mounted cfg env _) as [[] s2]; [|done].
    change (negb true) with false; cbv iota.
    destruct (fst (os_path_exists cfg env (network_file p) s2)); [|done].
    change (negb true) with false; cbv iota.
    destruct (copy_ok env _ _); intros [= <-]; by (left + right).
  - destruct (ensure_mounted cfg env s) as [[] s2]; [|done].
    change (negb true) with false; cbv iota.
    destruct (fst (os_path_exists cfg env (network_file p) s2)); [|done].
    intros [= <-]. by right.
Qed.

(** The loop, whatever the share and the server do: all it asks of the
    server is to add tracks of the list, in the order of the list, each
    under one of its two paths. *)
Lemma add_tracks_calls tracks :
  ∀ w, ∃ kept uris,
    calls (snd (add_tracks tracks w)) = rev (map Add uris) ++ calls w
    ∧ kept `sublist_of` tracks
    ∧ Forall2 (λ t u, uri_of t u) kept uris.
Proof.
  induction tracks as [|t tracks IH]; intros w.
  - exists [], []. split; [done|]. split; constructor.
  - cbn [Player.add_tracks].
    destruct (get_file_path cfg env (ti_file_path t) (net w)) as [o n] eqn:E.
    rewrite (pbind_run _ _ _ _ _ (lift_run _ _ _ _ E)).
    assert (∀ w0, calls w0 = calls w →
              ∃ kept uris,
                calls (snd (add_tracks tracks w0))
                = rev (map Add uris) ++ calls w
                ∧ kept `sublist_of` t :: tracks
                ∧ Forall2 (λ t u, uri_of t u) kept uris) as Hskip.
    { intros w0 E0. destruct (IH w0) as (kept & uris & Hc & Hs & Hu).
      exists kept, uris. rewrite Hc, E0. split; [done|].
      split; [by apply sublist_cons|done]. }
    destruct o as [q|]; [|by apply Hskip].
    destruct (decide (q = "")); [by apply Hskip|].
    unfold client_add, call, Player.bind at 1. cbn [net calls].
    assert (uri_of t ("file://" +:+ q)) as Huri.
    { assert (fst (get_file_path cfg env (ti_file_path t) (net w)) = Some q)
        as Hq by (by rewrite E).
      apply get_file_path_some in Hq as [-> | ->]; by (left + right). }
    destruct (add_ok server _).
    + destruct (IH {| net := n; calls := Add ("file://" +:+ q) :: calls w |})
        as (kept & uris & Hc & Hs & Hu).
      exists (t :: kept), (("file://" +:+ q) :: uris). rewrite Hc.
      split; [simpl; by rewrite <- app_assoc|].
      split; [by apply sublist_skip|by constructor].
    + exists [t], ["file://" +:+ q]. split; [done|].
      split; [apply sublist_skip, sublist_nil_l|].
      constructor; [done|constructor].
Qed.

Local Ltac pick_in E :=
  cbv beta iota in E;
  try change (negb true) with false in E;
  try change (negb false) with true in E;
  cbv beta iota in E.

Local Ltac ends E :=
  cbv [Player.bind Player.logger lift Player.ret Net.logger emit] in E;
  injection E as <- <-; cbn [net calls].

(** X30.  What [play_album] asks of the server, whatever the share and the
    server do.  It answers [True] only when the player is connected and
    [play] has returned, and then the calls it has made are: [clear],
    [add] for tracks of the album in the album's order, each under one of
    its two paths, and [play] last.  Without a connection, without an
    album or with an album without tracks it answers [False] and makes no
    call at all. *)
Theorem play_album_calls album w :
  let w1 := snd (ensure_connected w) in
  let r := play_album album w in
  ∃ d, calls (snd r) = d ++ calls w1
    ∧ (fst r = true →
       fst (ensure_connected w) = true ∧ play_ok server = true
       ∧ ∃ a kept uris,
           album = Some a ∧ kept `sublist_of` ai_tracks a
           ∧ Forall2 (λ t u, uri_of t u) kept uris
           ∧ d = Play :: rev (map Add uris) ++ [Clear])
    ∧ (fst (ensure_connected w) = false ∨ album = None
       ∨ (∃ a, album = Some a ∧ ai_tracks a = []) →
       fst r = false ∧ d = []).
Proof.
  intros w1 r. subst w1 r.
  destruct (play_album album w) as [ok wf] eqn:E.
  unfold Player.play_album in E.
  destruct (ensure_connected w) as [connected w1] eqn:Hconn.
  rewrite (pbind_run _ _ _ _ _ Hconn) in E. cbn [fst snd].
  destruct connected; pick_in E.
  2: { ends E. exists []. split; [done|]. split; [by intros [=]|done]. }
  destruct album as [a|].
  2: { ends E. exists []. split; [done|]. split; [by intros [=]|done]. }
  destruct (ai_tracks a) as [|t0 more] eqn:Etracks.
  { ends E. exists []. split; [done|]. split; [by intros [=]|done]. }
  assert (∀ P : Prop,
            true = false ∨ Some a = None
            ∨ (∃ a0, Some a = Some a0 ∧ ai_tracks a0 = []) → P) as Hno.
  { intros P [?|[?|(a0 & [= <-] & E0)]]; try done. congruence. }
  unfold client_clear, call, Player.bind at 1 in E.
  destruct (clear_ok server); pick_in E.
  2: { ends E. exists [Clear]. split; [done|].
       split; [by intros [=]|exact (Hno _)]. }
  destruct (add_tracks_calls (t0 :: more)
              {| net := net w1; calls := Clear :: calls w1 |})
    as (kept & uris & Hcalls & Hsub & Huris).
  destruct (add_tracks (t0 :: more) _) as [added w2] eqn:Eadd.
  rewrite (pbind_run _ _ _ _ _ Eadd) in E. cbn [snd calls] in Hcalls.
  destruct added; pick_in E.
  2: { ends E. exists (rev (map Add uris) ++ [Clear]).
       split; [rewrite Hcalls, <- app_assoc; reflexivity|].
       split; [by intros [=]|exact (Hno _)]. }
  unfold client_play, call, Player.bind at 1 in E.
  exists (Play :: rev (map Add uris) ++ [Clear]).
  destruct (play_ok server) eqn:Hplay; pick_in E; ends E.
  - split; [rewrite Hcalls; simpl; by rewrite <- app_assoc|].
    split; [|exact (Hno _)]. intros _. split; [done|]. split; [done|].
    exists a, kept, uris. by rewrite Etracks.
  - split; [rewrite Hcalls; simpl; by rewrite <- app_assoc|].
    split; [by intros [=]|exact (Hno _)].
Qed.

End PlayerFacts.

Lemma play_album_queues_every_track_witness :
  let cfg := Config.shipped in
  let env := Fixture.share in
  let server := Fixture.willing_server in
  let a := Fixture.album_a in
  let w := {| Player.net := Fixture.start true; Player.calls := [] |} in
  Fixture.connected w = (true, w)
  ∧ Net.ready env (Player.net w)
  ∧ Library.ai_tracks a ≠ []
  ∧ (∀ t, t ∈ Library.ai_tracks a →
       Library.ti_file_path t ≠ ""
       ∧ Net.exists_ env (Net.network_file cfg (Library.ti_file_path t)) = true)
  ∧ Player.clear_ok server = true
  ∧ (∀ u, Player.add_ok server u = true)
  ∧ Player.play_ok server = true
  ∧ ∃ w2 uris,
      Player.play_album cfg env server Fixture.connected (Some a) w = (true, w2)
      ∧ Player.calls w2
        = Player.Play :: rev (map Player.Add uris)
          ++ Player.Clear :: Player.calls w
      ∧ Forall2
          (λ t u,
             u = "file://" +:+ Net.cache_file cfg (Library.ti_file_path t)
             ∨ u = "file://" +:+ Net.network_file cfg (Library.ti_file_path t))
          (Library.ai_tracks a) uris.
Proof.
  intros cfg env server a w.
  assert (H1 : Fixture.connected w = (true, w)) by reflexivity.
  assert (H2 : Net.ready env (Player.net w)) by (by split).
  assert (Library.ai_tracks a
          = [{| Library.ti_title := "Song1"; Library.ti_artist := "Artist";
                Library.ti_track_number := 1; Library.ti_disc_number := 1;
                Library.ti_duration := (180 # 1)%Q;
                Library.ti_file_path := "Artist/AlbumA/01.flac" |};
             {| Library.ti_title := "Song2"; Library.ti_artist := "Artist";
                Library.ti_track_number := 2; Library.ti_disc_number := 1;
                Library.ti_duration := (180 # 1)%Q;
                Library.ti_file_path := "Artist/AlbumA/02.flac" |}]) as Et
    by (vm_compute; reflexivity).
  assert (H3 : Library.ai_tracks a ≠ []) by (by rewrite Et).
  assert (H4 : ∀ t, t ∈ Library.ai_tracks a →
                 Library.ti_file_path t ≠ ""
                 ∧ Net.exists_ env
                     (Net.network_file cfg (Library.ti_file_path t)) = true).
  { intros t Ht. rewrite Et in Ht.
    apply elem_of_cons in Ht as [->|Ht];
      [split; [discriminate|vm_compute; reflexivity]|].
    apply list_elem_of_singleton in Ht as ->.
    split; [discriminate|vm_compute; reflexivity]. }
  assert (H5 : ∀ u, Player.add_ok server u = true) by reflexivity.
  split; [exact H1|]. split; [exact H2|]. split; [exact H3|].
  split; [exact H4|]. split; [reflexivity|]. split; [exact H5|].
  split; [reflexivity|].
  exact (play_album_queues_every_track cfg env server Fixture.connected a w w
           H1 H2 H3 H4 eq_refl H5 eq_refl).
Defined.
